(** * The Windows port of the LevelDB environment (port/port_win.cc)

    A shallow embedding of the file handles, the file lock, the logger,
    the directory operations and the background task queue of [_WinEnv],
    followed by the properties established about them.

    Conventions.  Every operating-system or C/C++ runtime object the code
    holds (a [FILE*], a [std::ofstream], a [HANDLE], a [std::thread]) is a
    record of the observable state that the code can query, and each call
    into the runtime takes, as an extra argument, what the outside world
    answers to that call (a device fault, a raised exception).  The
    functions of the source keep their names. *)

From Stdlib Require Import ZArith Lia List Bool Permutation.
From stdpp Require Import base list strings gmap.

Local Open Scope Z_scope.

(** ** Status *)

(** [leveldb::Status] as this file produces it: [Status::OK()] or
    [Status::IOError(context, message)]. *)
Inductive Status : Type :=
  | OK : Status
  | IOError (context message : string) : Status.

Definition ok (s : Status) : bool :=
  match s with OK => true | IOError _ _ => false end.

Definition is_io_error (s : Status) : bool := negb (ok s).

(** [strerror(errno)]: the text is the runtime's; only its presence matters. *)
Definition strerror (errno : nat) : string :=
  match errno with
  | 22%nat => "Invalid argument"
  | 5%nat => "Input/output error"
  | _ => "Unknown error"
  end.

Definition IOError_errno (context : string) (errno : nat) : Status :=
  IOError context (strerror errno).

Definition EIO : nat := 5.
Definition EINVAL : nat := 22.

(** ** _WinSequentialFile *)

Module SeqFile.

(** A C stream opened with mode "rb" on a file of fixed [content]: the
    file position, and the two sticky indicators that [feof] and
    [ferror] test. *)
Record FILE := mkFILE {
  content : list Byte.byte;
  pos : Z;
  eof_ind : bool;
  err_ind : bool
}.

Record t := mk {
  filename_ : string;
  file_ : FILE
}.

Definition fopen (content : list Byte.byte) : FILE :=
  {| content := content; pos := 0; eof_ind := false; err_ind := false |}.

(** Bytes between the file position and the end of the file. *)
Definition remaining (f : FILE) : list Byte.byte :=
  drop (Z.to_nat (pos f)) (content f).

(** What the device answers to one [fread]: [None], it delivers whatever
    is asked; [Some k], it delivers at most [k] further bytes and then
    reports a failure (not an end of file). *)
Definition fault := option nat.

(** The device is consulted and fails during this [fread].  A stream
    whose end-of-file indicator is set returns end-of-file without
    consulting the device (ISO C, 7.21.7.1 and 7.21.8.1). *)
Definition device_fails (f : FILE) (n : nat) (d : fault) : bool :=
  negb (eof_ind f) &&
  match d with
  | Some k => (k <? n)%nat
  | None => false
  end.

(** [_fread_nolock(scratch, 1, n, file_)]: the bytes stored in
    [scratch] (their number is the returned [r]) and the stream after. *)
Definition fread (f : FILE) (n : nat) (d : fault) : list Byte.byte * FILE :=
  if eof_ind f then ([], f)
  else
    match d with
    | Some k =>
        if (k <? n)%nat then
          let got := take k (remaining f) in
          (got, {| content := content f;
                   pos := pos f + Z.of_nat (length got);
                   eof_ind := false;
                   err_ind := true |})
        else
          let got := take n (remaining f) in
          (got, {| content := content f;
                   pos := pos f + Z.of_nat (length got);
                   eof_ind := (length got <? n)%nat;
                   err_ind := err_ind f |})
    | None =>
        let got := take n (remaining f) in
        (got, {| content := content f;
                 pos := pos f + Z.of_nat (length got);
                 eof_ind := (length got <? n)%nat;
                 err_ind := err_ind f |})
    end.

Definition feof (f : FILE) : bool := eof_ind f.

(** [Status Read(size_t n, Slice* result, char* scratch)]: the status,
    the slice [*result] and the object after the call. *)
Definition Read (n : nat) (d : fault) (s : t) : Status * list Byte.byte * t :=
  let '(result, f') := fread (file_ s) n d in
  let r := length result in
  let s' := {| filename_ := filename_ s; file_ := f' |} in
  if (r <? n)%nat then
    if feof f' then (OK, result, s')
    else (IOError_errno (filename_ s) EIO, result, s')
  else (OK, result, s').

(** [long] of the Microsoft compilers this port is written for: 32 bits. *)
Definition long_bits : Z := 32.

(** The implicit conversion of a [uint64_t] argument to a parameter of
    type [long]: reduction modulo [2^long_bits] into the signed range. *)
Definition to_long (n : Z) : Z :=
  let m := n mod 2 ^ long_bits in
  if m <? 2 ^ (long_bits - 1) then m else m - 2 ^ long_bits.

(** [fseek(file_, offset, SEEK_CUR)]: [None] is a non-zero return.  The
    seek fails when the device refuses it ([refused]) or when the
    resulting position would be negative; a successful seek clears the
    end-of-file indicator.  A position past the end is allowed. *)
Definition fseek_cur (f : FILE) (offset : Z) (refused : bool) : option FILE :=
  if refused then None
  else if pos f + offset <? 0 then None
  else Some {| content := content f;
               pos := pos f + offset;
               eof_ind := false;
               err_ind := err_ind f |}.

(** [Status Skip(uint64_t n)]. *)
Definition Skip (n : Z) (refused : bool) (s : t) : Status * t :=
  match fseek_cur (file_ s) (to_long n) refused with
  | None => (IOError_errno (filename_ s) EINVAL, s)
  | Some f' => (OK, {| filename_ := filename_ s; file_ := f' |})
  end.

(** [NewSequentialFile] on an existing file. *)
Definition open (fname : string) (content : list Byte.byte) : t :=
  {| filename_ := fname; file_ := fopen content |}.

(** The calls a client can make on the handle, with the device's
    answers, used to range over the states a handle can be in. *)
Inductive call :=
  | CRead (n : nat) (d : fault)
  | CSkip (n : Z) (refused : bool).

Definition do_call (c : call) (s : t) : t :=
  match c with
  | CRead n d => (Read n d s).2
  | CSkip n refused => (Skip n refused s).2
  end.

Definition after (cs : list call) (s : t) : t :=
  foldl (fun s c => do_call c s) s cs.

(** A handle is well formed when its position is not negative and the
    end-of-file indicator is only set at or past the end. *)
Definition wf (s : t) : Prop :=
  0 <= pos (file_ s) /\
  (eof_ind (file_ s) = true ->
   Z.of_nat (length (content (file_ s))) <= pos (file_ s)).

End SeqFile.

(** ** _WinWritableFile *)

Module Writable.

(** What one operation of the underlying [std::ofstream] does when it
    reaches the operating system: it works, it fails silently (an error
    bit is set in the stream state), or it raises a [std::exception]
    with the given [what()]. *)
Inductive outcome :=
  | Works
  | Fails
  | Raises (what : string).

(** What has been asked of the stream and of the operating system, in
    order.  [EvCommit] is the request to move the operating system's
    cache to stable storage ([FlushFileBuffers], [_commit]). *)
Inductive event :=
  | EvWrite (data : list Byte.byte)
  | EvFlush
  | EvClose
  | EvCommit.

(** A [std::ofstream]: whether a file is attached, whether no error bit
    is set, the bytes still in the user-space buffer, the bytes handed to
    the operating system, and the history of operations. *)
Record ofstream := mkOfstream {
  is_open : bool;
  good : bool;
  buffer : list Byte.byte;
  handed : list Byte.byte;
  history : list event
}.

Record t := mk {
  path_ : string;
  written_ : Z;
  file_ : ofstream
}.

(** Control leaves a C++ function by [return] or by a raised exception. *)
Inductive result (A : Type) :=
  | Return (a : A)
  | Throw (what : string).
Arguments Return {A} a.
Arguments Throw {A} what.

(** [file_.open(path, trunc | out | binary)]; a failure to open sets an
    error bit and attaches no file. *)
Definition ofstream_open (opened : bool) : ofstream :=
  {| is_open := opened; good := opened; buffer := []; handed := [];
     history := [] |}.

(** [file_.write(data, size)]. *)
Definition ofstream_write (data : list Byte.byte) (o : outcome) (f : ofstream)
    : ofstream * option string :=
  let h := history f ++ [EvWrite data] in
  if negb (good f) then
    ({| is_open := is_open f; good := false; buffer := buffer f;
        handed := handed f; history := h |}, None)
  else
    match o with
    | Works =>
        ({| is_open := is_open f; good := true; buffer := buffer f ++ data;
            handed := handed f; history := h |}, None)
    | Fails =>
        ({| is_open := is_open f; good := false; buffer := buffer f;
            handed := handed f; history := h |}, None)
    | Raises what =>
        ({| is_open := is_open f; good := false; buffer := buffer f;
            handed := handed f; history := h |}, Some what)
    end.

(** [file_.flush()]: the user-space buffer goes to the operating system,
    unless an error bit is already set. *)
Definition ofstream_flush (o : outcome) (f : ofstream) : ofstream * option string :=
  let h := history f ++ [EvFlush] in
  match o with
  | Works =>
      if good f && is_open f then
        ({| is_open := true; good := true; buffer := [];
            handed := handed f ++ buffer f; history := h |}, None)
      else
        ({| is_open := is_open f; good := false; buffer := buffer f;
            handed := handed f; history := h |}, None)
  | Fails =>
      ({| is_open := is_open f; good := false; buffer := buffer f;
          handed := handed f; history := h |}, None)
  | Raises what =>
      ({| is_open := is_open f; good := false; buffer := buffer f;
          handed := handed f; history := h |}, Some what)
  end.

(** [file_.close()]: the buffer is written out and the file released;
    the file is released whatever the outcome. *)
Definition ofstream_close (o : outcome) (f : ofstream) : ofstream * option string :=
  let h := history f ++ [EvClose] in
  match o with
  | Works =>
      ({| is_open := false; good := good f && is_open f; buffer := [];
          handed := if is_open f then handed f ++ buffer f else handed f;
          history := h |}, None)
  | Fails =>
      ({| is_open := false; good := false; buffer := [];
          handed := handed f; history := h |}, None)
  | Raises what =>
      ({| is_open := false; good := false; buffer := [];
          handed := handed f; history := h |}, Some what)
  end.

Definition with_file (w : t) (f : ofstream) : t :=
  {| path_ := path_ w; written_ := written_ w; file_ := f |}.

(** [void Open(void)]. *)
Definition Open (opened : bool) (w : t) : t :=
  {| path_ := path_ w; written_ := 0; file_ := ofstream_open opened |}.

(** The constructor [_WinWritableFile(path)]. *)
Definition new (path : string) (opened : bool) : t :=
  Open opened {| path_ := path; written_ := 0; file_ := ofstream_open false |}.

(** [Status Append(const Slice& data)]. *)
Definition Append (data : list Byte.byte) (o : outcome) (w : t) : result Status * t :=
  let '(f, exn) := ofstream_write data o (file_ w) in
  match exn with
  | Some what => (Throw what, with_file w f)
  | None =>
      if negb (good f)
      then (Return (IOError (path_ w +:+ " Append") "cannot write"), with_file w f)
      else (Return OK, with_file w f)
  end.

(** [Status Flush(void)]: no [try] block, an exception leaves the function. *)
Definition Flush (o : outcome) (w : t) : result Status * t :=
  let '(f, exn) := ofstream_flush o (file_ w) in
  match exn with
  | Some what => (Throw what, with_file w f)
  | None => (Return OK, with_file w f)
  end.

(** [Status Sync(void)]: [try { Flush(); } catch (const std::exception&)]. *)
Definition Sync (o : outcome) (w : t) : Status * t :=
  match Flush o w with
  | (Throw what, w') => (IOError (path_ w +:+ " sync") what, w')
  | (Return _, w') => (OK, w')
  end.

(** [Status Close(void)]; [o_flush] and [o_close] are the outcomes of the
    flush inside [Sync] and of [file_.close()], when they are issued. *)
Definition Close (o_flush o_close : outcome) (w : t) : Status * t :=
  if is_open (file_ w) then
    let '(_, w1) := Sync o_flush w in
    let '(f, exn) := ofstream_close o_close (file_ w1) in
    match exn with
    | Some what => (IOError (path_ w +:+ " close") what, with_file w1 f)
    | None => (OK, with_file w1 f)
    end
  else (OK, w).

(** The destructor [~_WinWritableFile]: [Close()], its status dropped. *)
Definition destroy (o_flush o_close : outcome) (w : t) : t :=
  (Close o_flush o_close w).2.

(** The events a call added to the history. *)
Definition added (before after : t) : list event :=
  drop (length (history (file_ before))) (history (file_ after)).

(** [Sync] as the specification words it: exactly a flush of the
    user-space buffers, any exception translated into an I/O error. *)
Definition Sync_as_specified (o : outcome) (w : t) : Status * t :=
  let '(r, w') := Flush o w in
  (match r with
   | Return st => st
   | Throw what => IOError (path_ w +:+ " sync") what
   end, w').

End Writable.

(** ** _WinFileLock, LockFile and UnlockFile *)

Module Lock.

(** [INVALID_HANDLE_VALUE], and [nullptr] for a [FileLock*]. *)
Definition INVALID_HANDLE_VALUE : Z := -1.
Definition nullptr : nat := 0.

(** The part of the process and of the operating system the lock code
    touches: the open handles with the path each one holds exclusively
    (share mode 0), and the [_WinFileLock] objects alive on the heap,
    each with its [file_] member.  The two counters give the next handle
    and the next address the system hands out. *)
Record world := mkWorld {
  handles : gmap Z string;
  heap : gmap nat Z;
  next_handle : Z;
  next_addr : nat
}.

(** A C++ call returns, or has no defined behaviour. *)
Inductive outcome (A : Type) :=
  | Returns (a : A) (w : world)
  | Undefined.
Arguments Returns {A} a w.
Arguments Undefined {A}.

Definition held (fname : string) (w : world) : bool :=
  bool_decide (fname ∈ (map_to_list (handles w)).*2).

(** [CreateFile(fname, GENERIC_READ | GENERIC_WRITE, 0, nullptr,
    CREATE_ALWAYS, ...)]: refused by the system ([denied]) or because the
    path is already held. *)
Definition CreateFile (fname : string) (denied : bool) (w : world) : Z * world :=
  if denied || held fname w then (INVALID_HANDLE_VALUE, w)
  else
    let h := Z.max 0 (next_handle w) in
    (h, {| handles := <[h := fname]> (handles w); heap := heap w;
           next_handle := h + 1; next_addr := next_addr w |}).

(** [CloseHandle(h)]. *)
Definition CloseHandle (h : Z) (w : world) : world :=
  {| handles := delete h (handles w); heap := heap w;
     next_handle := next_handle w; next_addr := next_addr w |}.

(** [new _WinFileLock(hFile)]. *)
Definition new_WinFileLock (file : Z) (w : world) : nat * world :=
  let a := S (next_addr w) in
  (a, {| handles := handles w; heap := <[a := file]> (heap w);
         next_handle := next_handle w; next_addr := a |}).

(** The destructor [~_WinFileLock] on the object whose member is [file_]. *)
Definition destroy (file_ : Z) (w : world) : world :=
  if bool_decide (file_ ≠ INVALID_HANDLE_VALUE) then CloseHandle file_ w else w.

(** [delete lock] for a non-null pointer: the destructor runs and the
    storage is released when the pointer designates a live object; a
    pointer to an object already deleted has no defined behaviour. *)
Definition delete_lock (lock : nat) (w : world) : outcome unit :=
  match heap w !! lock with
  | Some file_ =>
      let w1 := destroy file_ w in
      Returns tt {| handles := handles w1; heap := delete lock (heap w1);
                    next_handle := next_handle w1; next_addr := next_addr w1 |}
  | None => Undefined
  end.

(** [Status LockFile(const std::string& fname, FileLock** lock)]: the
    status and [*lock].  [errMsg] is what [_GetWindowErrorMessage]
    returns when [CreateFile] has failed. *)
Definition LockFile (fname : string) (denied : bool) (errMsg : option string)
    (w : world) : Status * nat * world :=
  let '(hFile, w1) := CreateFile fname denied w in
  if bool_decide (hFile = INVALID_HANDLE_VALUE) then
    match errMsg with
    | Some m => (IOError ("lock " +:+ fname) m, nullptr, w1)
    | None => (IOError ("acquiring lock " +:+ fname +:+ " failed") "", nullptr, w1)
    end
  else
    let '(lock, w2) := new_WinFileLock hFile w1 in
    (OK, lock, w2).

(** [Status UnlockFile(FileLock* lock)]. *)
Definition UnlockFile (lock : nat) (w : world) : outcome Status :=
  if bool_decide (lock ≠ nullptr) then
    match delete_lock lock w with
    | Returns _ w' => Returns OK w'
    | Undefined => Undefined
    end
  else Returns OK w.

Definition empty_world : world :=
  {| handles := ∅; heap := ∅; next_handle := 0; next_addr := 0 |}.

End Lock.

(** ** Directories *)

Module Fs.

Inductive node := Dir | File.

(** A path is the list of its components; the file system maps the
    paths that exist to what they are. *)
Abbreviation path := (list string).

Definition exists_ (fs : gmap path node) (p : path) : bool :=
  match fs !! p with Some _ => true | None => false end.

Definition is_directory (fs : gmap path node) (p : path) : bool :=
  match fs !! p with Some Dir => true | _ => false end.

(** [create_directories(name, ec)], walking from the first component:
    [parent] is the prefix already dealt with, [rest] what follows and
    [created] whether the last step made a directory.  The result is the
    returned [bool], the message of [ec] when it is set, and the file
    system.  [denied q] says that the system refuses to create [q]. *)
Fixpoint create_directories_from (denied : path -> bool) (parent rest : path)
    (created : bool) (fs : gmap path node)
    : bool * option string * gmap path node :=
  match rest with
  | [] => (created, None, fs)
  | c :: rest' =>
      let q := parent ++ [c] in
      match fs !! q with
      | Some Dir => create_directories_from denied q rest' false fs
      | Some File => (false, Some "File exists", fs)
      | None =>
          if denied q then (false, Some "Access is denied", fs)
          else create_directories_from denied q rest' true (<[q := Dir]> fs)
      end
  end.

Definition create_directories (denied : path -> bool) (name : path)
    (fs : gmap path node) : bool * option string * gmap path node :=
  create_directories_from denied [] name false fs.

Definition ec_message (ec : option string) : string :=
  match ec with Some m => m | None => "" end.

Definition show (p : path) : string := foldr (fun c acc => "/" +:+ c +:+ acc) "" p.

(** [Status CreateDir(const std::string& name)]. *)
Definition CreateDir (denied : path -> bool) (name : path)
    (fs : gmap path node) : Status * gmap path node :=
  if exists_ fs name && is_directory fs name then (OK, fs)
  else
    let '(made, ec, fs') := create_directories denied name fs in
    if negb made then (IOError (show name) (ec_message ec), fs')
    else (OK, fs').

(** The non-empty prefixes of a path, shortest first, after [parent]. *)
Fixpoint prefixes_from (parent rest : path) : list path :=
  match rest with
  | [] => []
  | c :: rest' => (parent ++ [c]) :: prefixes_from (parent ++ [c]) rest'
  end.

Definition prefixes (p : path) : list path := prefixes_from [] p.

End Fs.

(** ** StartThread *)

Module Thread.

(** A task: the function pointer and its argument, both opaque. *)
Record task := mkTask { function : nat; arg : nat }.

(** The process: the tasks running on threads of their own, and whether
    [std::terminate] has been called. *)
Record process := mkProcess {
  running : list task;
  terminated : bool
}.

(** A [std::thread] object: it is joinable from the construction with a
    function until [join] or [detach] is called on it. *)
Record std_thread := mkThread { joinable : bool }.

(** [std::thread t(f)]: a new thread of execution starts running [f]. *)
Definition thread_ctor (f : task) (p : process) : std_thread * process :=
  ({| joinable := true |},
   {| running := running p ++ [f]; terminated := terminated p |}).

Definition std_terminate (p : process) : process :=
  {| running := []; terminated := true |}.

(** [~thread()]: if the object is joinable, calls [std::terminate]. *)
Definition thread_dtor (t : std_thread) (p : process) : process :=
  if joinable t then std_terminate p else p.

(** [void StartThread(void (*function)(void*), void* arg)]: the local
    [t] is constructed, and destroyed when the function body ends. *)
Definition StartThread (function arg : nat) (p : process) : process :=
  let '(t, p1) := thread_ctor {| function := function; arg := arg |} p in
  thread_dtor t p1.

Definition started : process := {| running := []; terminated := false |}.

End Thread.

(** ** _WinLogger *)

Module Logger.

(** [SYSTEMTIME], as filled by [GetLocalTime]: every field is a [WORD]. *)
Record SYSTEMTIME := mkTime {
  wYear : N;
  wMonth : N;
  wDay : N;
  wHour : N;
  wMinute : N;
  wSecond : N;
  wMilliseconds : N
}.

Definition nl : Byte.byte := Byte.x0a.
Definition NUL : Byte.byte := Byte.x00.

(** The test [c == '\n'] on a byte that may be absent. *)
Definition is_nl (c : option Byte.byte) : bool :=
  match c with
  | Some b => Byte.eqb b nl
  | None => false
  end.

(** The character of a digit below 16, lower case as [%x] prints it. *)
Definition digit_char (d : N) : Byte.byte :=
  match Byte.of_N (if (d <? 10)%N then 48 + d else 87 + d)%N with
  | Some b => b
  | None => Byte.x3f
  end.

(** The digits of [n] in [base], most significant first, in front of
    [acc]; [fuel] bounds the number of digits. *)
Fixpoint digits_aux (base : N) (fuel : nat) (n : N) (acc : list Byte.byte)
    : list Byte.byte :=
  match fuel with
  | O => acc
  | S fuel' =>
      let acc' := digit_char (n mod base) :: acc in
      if (n / base =? 0)%N then acc' else digits_aux base fuel' (n / base) acc'
  end.

(** A number has no more digits than bits. *)
Definition digits (base : N) (n : N) : list Byte.byte :=
  digits_aux base (S (N.size_nat n)) n [].

(** [%0wd] of a non-negative value. *)
Definition fmt_0d (w : nat) (n : N) : list Byte.byte :=
  let ds := digits 10 n in
  replicate (w - length ds) Byte.x30 ++ ds.

(** [%llx]. *)
Definition fmt_llx (n : N) : list Byte.byte := digits 16 n.

(** The text of
    ["%04d/%02d/%02d-%02d:%02d:%02d.%03d %llx "] for a time and a thread. *)
Definition header (st : SYSTEMTIME) (thread_id : N) : list Byte.byte :=
  fmt_0d 4 (wYear st) ++ [Byte.x2f] ++
  fmt_0d 2 (wMonth st) ++ [Byte.x2f] ++
  fmt_0d 2 (wDay st) ++ [Byte.x2d] ++
  fmt_0d 2 (wHour st) ++ [Byte.x3a] ++
  fmt_0d 2 (wMinute st) ++ [Byte.x3a] ++
  fmt_0d 2 (wSecond st) ++ [Byte.x2e] ++
  fmt_0d 3 (wMilliseconds st) ++ [Byte.x20] ++
  fmt_llx thread_id ++ [Byte.x20].

(** The bytes [bs] stored in [buf] from offset [off] on. *)
Definition store (buf : list Byte.byte) (off : nat) (bs : list Byte.byte)
    : list Byte.byte :=
  take off buf ++ bs ++ drop (off + length bs) buf.

(** [_snprintf_s(p, size, _TRUNCATE, ...)] for the formatted [text]: the
    text and a terminating NUL are stored if they fit in [size] bytes and
    the length is returned; otherwise as much as fits is stored, with the
    NUL, and -1 is returned. *)
Definition snprintf_s_TRUNCATE (buf : list Byte.byte) (p size : Z)
    (text : list Byte.byte) : list Byte.byte * Z :=
  if Z.of_nat (length text) <? size
  then (store buf (Z.to_nat p) (text ++ [NUL]), Z.of_nat (length text))
  else (store buf (Z.to_nat p) (take (Z.to_nat (size - 1)) text ++ [NUL]), -1).

(** [vsnprintf(p, size, format, ap)] for the formatted [text]: at most
    [size - 1] characters and a NUL are stored; the length the whole text
    has is returned. *)
Definition vsnprintf (buf : list Byte.byte) (p size : Z)
    (text : list Byte.byte) : list Byte.byte * Z :=
  (store buf (Z.to_nat p) (take (Z.to_nat (size - 1)) text ++ [NUL]),
   Z.of_nat (length text)).

(** What is asked of the log stream. *)
Inductive op :=
  | Fwrite (line : list Byte.byte)
  | Fflush.

(** [sizeof(buffer)] of the stack buffer, and the size of the heap one. *)
Definition stack_bufsize : Z := 500.
Definition heap_bufsize : Z := 30000.

(** The end of the loop body, from "Add newline if necessary" on, with
    [p] the offset of the pointer from [base]: the bytes handed to
    [fwrite]. *)
Definition add_newline_and_write (base : list Byte.byte) (p : Z) : list Byte.byte :=
  if (p =? 0) || negb (is_nl (base !! Z.to_nat (p - 1)))
  then take (Z.to_nat (p + 1)) (store base (Z.to_nat p) [nl])
  else take (Z.to_nat p) base.

(** The body of the loop for a buffer of [bufsize] bytes: [None] is the
    [continue] of the first turn, [Some line] the line written before the
    [break].  [st] is what [GetLocalTime] answers in this turn, [msg] the
    text that [format] and the arguments print as.  The buffer starts
    filled with NUL; it is only read where it has been written. *)
Definition Logv_body (first : bool) (bufsize : Z) (st : SYSTEMTIME)
    (thread_id : N) (msg : list Byte.byte) : option (list Byte.byte) :=
  let base := replicate (Z.to_nat bufsize) NUL in
  let limit := bufsize in
  let p := 0 in
  let '(base, r) := snprintf_s_TRUNCATE base p (limit - p) (header st thread_id) in
  let p := p + r in
  let '(base, p) :=
    if p <? limit then
      let '(base, r) := vsnprintf base p (limit - p) msg in (base, p + r)
    else (base, p) in
  if p >=? limit then
    if first then None
    else Some (add_newline_and_write base (limit - 1))
  else Some (add_newline_and_write base p).

(** Turn [iter] of [for (int iter = 0; iter < 2; iter++)]. *)
Definition Logv_iter (iter : nat) (st : SYSTEMTIME) (thread_id : N)
    (msg : list Byte.byte) : option (list Byte.byte) :=
  if (iter =? 0)%nat
  then Logv_body true stack_bufsize st thread_id msg
  else Logv_body false heap_bufsize st thread_id msg.

(** [void Logv(const char* format, va_list ap)]: the operations on the
    log stream.  [st0] and [st1] are the local times read in the first
    and in the second turn of the loop. *)
Definition Logv (st0 st1 : SYSTEMTIME) (thread_id : N) (msg : list Byte.byte)
    (log : list op) : list op :=
  match Logv_iter 0 st0 thread_id msg with
  | Some line => log ++ [Fwrite line; Fflush]
  | None =>
      match Logv_iter 1 st1 thread_id msg with
      | Some line => log ++ [Fwrite line; Fflush]
      | None => log
      end
  end.

(** The fields of a [SYSTEMTIME] are 16-bit, a thread identifier is a
    32-bit [DWORD]. *)
Definition in_range (st : SYSTEMTIME) : bool :=
  (wYear st <? 65536)%N && (wMonth st <? 65536)%N && (wDay st <? 65536)%N &&
  (wHour st <? 65536)%N && (wMinute st <? 65536)%N && (wSecond st <? 65536)%N &&
  (wMilliseconds st <? 65536)%N.

(** A line ends with a newline, added only when it is missing. *)
Definition with_newline (l : list Byte.byte) : list Byte.byte :=
  if is_nl (last l) then l else l ++ [nl].

End Logger.

(** ** The background queue: Schedule and BGThread *)

Module BG.

Import Thread.

(** The threads that touch the queue: the callers of [Schedule], and the
    threads started on [BGThread]. *)
Inductive tid :=
  | Submitter (i : nat)
  | Worker (j : nat).

#[global] Instance tid_eq_dec : EqDecision tid.
Proof. solve_decision. Defined.

(** Where a caller stands in [Schedule]. *)
Inductive spc :=
  | SIdle                        (* outside [Schedule] *)
  | SLocked (t : task)           (* [lock(mu_)] taken, before [if (!bgthread_)] *)
  | SDecided (t : task) (create : bool)
                                 (* [!bgthread_] evaluated to [create] *)
  | SNotify.                     (* after [lock.unlock()], before [notify_one] *)

(** A caller: where it stands, and the tasks it has yet to pass to
    [Schedule], one call each. *)
Record submitter := mkSubmitter { s_pc : spc; s_todo : list task }.

(** Where a thread stands in [BGThread]. *)
Inductive wpc :=
  | WTop                         (* at [lock(mu_)], or woken and re-locking *)
  | WLocked                      (* [mu_] held, at [while (queue_.empty())] *)
  | WWaiting                     (* blocked in [bgsignal_.wait(lock)] *)
  | WRun (f : task).             (* after [lock.unlock()], at [f()] *)

(** The members of [_WinEnv] the queue uses, the threads, and two
    histories: the calls [f()] made, and the [push_back]s, in order. *)
Record state := mkState {
  mu_ : option tid;
  bgthread_ : bool;
  queue_ : list task;
  submitters : list submitter;
  workers : list wpc;
  executed : list task;
  appended : list task
}.

Definition holds (me : tid) (s : state) : bool := bool_decide (mu_ s = Some me).

Definition is_waiting (w : wpc) : bool :=
  match w with WWaiting => true | _ => false end.

(** The atomic steps.  Those of [Schedule]: [ALock] ([std::unique_lock
    lock(mu_)]), [ADecide] (the test [!bgthread_]), [APush] (the creation
    of the thread if decided, [queue_.push_back], [lock.unlock()]) and
    [ANotify i j] ([bgsignal_.notify_one()], waking the waiting thread
    [j], or nobody when nobody waits).  Those of [BGThread]: [WLock],
    [WTest] (the test [queue_.empty()], then either [wait], which
    releases the mutex, or [front], [pop_front] and [unlock]), [WCall]
    (the call [f()]) and [WSpurious] (a [wait] that returns unnotified). *)
Inductive action :=
  | ALock (i : nat)
  | ADecide (i : nat)
  | APush (i : nat)
  | ANotify (i j : nat)
  | WLock (j : nat)
  | WTest (j : nat)
  | WCall (j : nat)
  | WSpurious (j : nat).

Definition step (a : action) (s : state) : option state :=
  match a with
  | ALock i =>
      match mu_ s, submitters s !! i with
      | None, Some {| s_pc := SIdle; s_todo := t :: todo |} =>
          Some {| mu_ := Some (Submitter i); bgthread_ := bgthread_ s;
                  queue_ := queue_ s;
                  submitters := <[i := {| s_pc := SLocked t; s_todo := todo |}]>
                                  (submitters s);
                  workers := workers s; executed := executed s;
                  appended := appended s |}
      | _, _ => None
      end
  | ADecide i =>
      match submitters s !! i with
      | Some {| s_pc := SLocked t; s_todo := todo |} =>
          if holds (Submitter i) s then
            Some {| mu_ := mu_ s; bgthread_ := bgthread_ s; queue_ := queue_ s;
                    submitters :=
                      <[i := {| s_pc := SDecided t (negb (bgthread_ s));
                                s_todo := todo |}]> (submitters s);
                    workers := workers s; executed := executed s;
                    appended := appended s |}
          else None
      | _ => None
      end
  | APush i =>
      match submitters s !! i with
      | Some {| s_pc := SDecided t create; s_todo := todo |} =>
          if holds (Submitter i) s then
            Some {| mu_ := None;
                    bgthread_ := if create then true else bgthread_ s;
                    queue_ := queue_ s ++ [t];
                    submitters := <[i := {| s_pc := SNotify; s_todo := todo |}]>
                                    (submitters s);
                    workers := if create then workers s ++ [WTop] else workers s;
                    executed := executed s;
                    appended := appended s ++ [t] |}
          else None
      | _ => None
      end
  | ANotify i j =>
      match submitters s !! i with
      | Some {| s_pc := SNotify; s_todo := todo |} =>
          let subs := <[i := {| s_pc := SIdle; s_todo := todo |}]> (submitters s) in
          match workers s !! j with
          | Some WWaiting =>
              Some {| mu_ := mu_ s; bgthread_ := bgthread_ s; queue_ := queue_ s;
                      submitters := subs;
                      workers := <[j := WTop]> (workers s);
                      executed := executed s; appended := appended s |}
          | _ =>
              if existsb is_waiting (workers s) then None
              else Some {| mu_ := mu_ s; bgthread_ := bgthread_ s;
                           queue_ := queue_ s; submitters := subs;
                           workers := workers s;
                           executed := executed s; appended := appended s |}
          end
      | _ => None
      end
  | WLock j =>
      match mu_ s, workers s !! j with
      | None, Some WTop =>
          Some {| mu_ := Some (Worker j); bgthread_ := bgthread_ s;
                  queue_ := queue_ s; submitters := submitters s;
                  workers := <[j := WLocked]> (workers s);
                  executed := executed s; appended := appended s |}
      | _, _ => None
      end
  | WTest j =>
      match workers s !! j with
      | Some WLocked =>
          if holds (Worker j) s then
            match queue_ s with
            | [] =>
                Some {| mu_ := None; bgthread_ := bgthread_ s; queue_ := [];
                        submitters := submitters s;
                        workers := <[j := WWaiting]> (workers s);
                        executed := executed s; appended := appended s |}
            | f :: q =>
                Some {| mu_ := None; bgthread_ := bgthread_ s; queue_ := q;
                        submitters := submitters s;
                        workers := <[j := WRun f]> (workers s);
                        executed := executed s; appended := appended s |}
            end
          else None
      | _ => None
      end
  | WCall j =>
      match workers s !! j with
      | Some (WRun f) =>
          Some {| mu_ := mu_ s; bgthread_ := bgthread_ s; queue_ := queue_ s;
                  submitters := submitters s;
                  workers := <[j := WTop]> (workers s);
                  executed := executed s ++ [f]; appended := appended s |}
      | _ => None
      end
  | WSpurious j =>
      match workers s !! j with
      | Some WWaiting =>
          Some {| mu_ := mu_ s; bgthread_ := bgthread_ s; queue_ := queue_ s;
                  submitters := submitters s;
                  workers := <[j := WTop]> (workers s);
                  executed := executed s; appended := appended s |}
      | _ => None
      end
  end.

(** A schedule is a list of steps; [run] is [None] when one of them is
    not enabled. *)
Fixpoint run (acts : list action) (s : state) : option state :=
  match acts with
  | [] => Some s
  | a :: acts' =>
      match step a s with
      | Some s' => run acts' s'
      | None => None
      end
  end.

(** A fresh [_WinEnv], with one caller for each list of tasks. *)
Definition init (progs : list (list task)) : state :=
  {| mu_ := None; bgthread_ := false; queue_ := [];
     submitters := map (fun todo => {| s_pc := SIdle; s_todo := todo |}) progs;
     workers := []; executed := []; appended := [] |}.

(** The tasks being run ([f()] not yet returned to the loop). *)
Definition running_of (w : wpc) : list task :=
  match w with WRun f => [f] | _ => [] end.

Definition running (s : state) : list task := concat (map running_of (workers s)).

(** The tasks a caller has not yet appended. *)
Definition pending_of (x : submitter) : list task :=
  match s_pc x with
  | SLocked t | SDecided t _ => t :: s_todo x
  | _ => s_todo x
  end.

Definition pending (s : state) : list task := concat (map pending_of (submitters s)).

(** [void Schedule(function, arg)] as one caller runs it when no other
    thread moves in between: its four steps in a row. *)
Definition Schedule (i j : nat) (s : state) : option state :=
  match step (ALock i) s with
  | Some s1 =>
      match step (ADecide i) s1 with
      | Some s2 =>
          match step (APush i) s2 with
          | Some s3 => step (ANotify i j) s3
          | None => None
          end
      | None => None
      end
  | None => None
  end.

Definition in_critical_section (p : spc) : bool :=
  match p with SLocked _ | SDecided _ _ => true | _ => false end.

Definition at_notify (x : submitter) : bool :=
  match s_pc x with SNotify => true | _ => false end.

(** What holds in every state the system reaches. *)
Record Inv (s : state) : Prop := mkInv {
  inv_workers : length (workers s) = if bgthread_ s then 1%nat else 0%nat;
  inv_sub_holds : forall i x,
    submitters s !! i = Some x -> in_critical_section (s_pc x) = true ->
    mu_ s = Some (Submitter i);
  inv_holds_sub : forall i,
    mu_ s = Some (Submitter i) ->
    exists x, submitters s !! i = Some x /\ in_critical_section (s_pc x) = true;
  inv_wrk_holds : forall j,
    workers s !! j = Some WLocked -> mu_ s = Some (Worker j);
  inv_holds_wrk : forall j,
    mu_ s = Some (Worker j) -> workers s !! j = Some WLocked;
  inv_decided : forall i t b todo,
    submitters s !! i = Some {| s_pc := SDecided t b; s_todo := todo |} ->
    b = negb (bgthread_ s);
  inv_fifo : executed s ++ running s ++ queue_ s = appended s;
  inv_started : bgthread_ s = true <-> appended s <> [];
  inv_wakeup :
    queue_ s <> [] -> existsb is_waiting (workers s) = true ->
    existsb at_notify (submitters s) = true
}.

(** A bound on the steps still needed to run every task. *)
Definition sub_weight (x : submitter) : nat :=
  11 * length (s_todo x) +
  match s_pc x with
  | SIdle => 0
  | SLocked _ => 10
  | SDecided _ _ => 9
  | SNotify => 3
  end.

Definition wrk_weight (w : wpc) : nat :=
  match w with
  | WWaiting => 0
  | WLocked => 1
  | WTop => 2
  | WRun _ => 3
  end.

Definition measure (s : state) : nat :=
  sum_list (map sub_weight (submitters s)) +
  sum_list (map wrk_weight (workers s)) +
  3 * length (queue_ s).

(** A caller that is outside [Schedule] and has a task left. *)
Definition can_start (x : submitter) : bool :=
  match s_pc x, s_todo x with
  | SIdle, _ :: _ => true
  | _, _ => false
  end.

(** Every task submitted has been run. *)
Definition all_done (s : state) : Prop :=
  pending s = [] /\ executed s = appended s.

End BG.

(** ** Reading a sequential file in pieces *)

Module SeqRead.

Import SeqFile.

(** [Read(n)] for each [n] of [ns] in turn, the device never failing:
    the statuses and slices returned, and the handle after. *)
Fixpoint read_chunks (ns : list nat) (s : t) : list (Status * list Byte.byte) * t :=
  match ns with
  | [] => ([], s)
  | n :: ns' =>
      let '(st, result, s1) := Read n None s in
      let '(rest, s2) := read_chunks ns' s1 in
      ((st, result) :: rest, s2)
  end.

End SeqRead.

(** ** _WinRandomAccessFile *)

Module RandomFile.

(** A file descriptor opened with [_O_RDONLY | _O_RANDOM | _O_BINARY]: the
    bytes of the file and the position shared by all users of the
    descriptor. *)
Record descriptor := mkDescriptor {
  content : list Byte.byte;
  position : Z
}.

Record t := mk {
  filename_ : string;
  fd_ : descriptor
}.

Definition INT_MAX : Z := 2 ^ 31 - 1.

(** The conversion of the [uint64_t offset] to the [__int64] parameter of
    [_lseeki64]. *)
Definition to_int64 (offset : Z) : Z :=
  let m := offset mod 2 ^ 64 in
  if m <? 2 ^ 63 then m else m - 2 ^ 64.

(** The conversion of the [size_t n] to the [unsigned int] parameter of
    [_read]. *)
Definition to_uint (n : Z) : Z := n mod 2 ^ 32.

(** [_lseeki64(fd_, offset, SEEK_SET)]: -1 when the system refuses the
    seek or the offset is negative, else the new position. *)
Definition _lseeki64 (fd : descriptor) (offset : Z) (refused : bool) : Z * descriptor :=
  if refused || (offset <? 0) then (-1, fd)
  else (offset, {| content := content fd; position := offset |}).

(** [_read(fd_, scratch, count)]: the returned [int], the bytes stored in
    [scratch] and the descriptor.  -1 when the device fails, or when
    [count] exceeds [INT_MAX] and the invalid-parameter handler returns;
    otherwise the bytes from the position on, at most [count], and their
    number. *)
Definition _read (fd : descriptor) (count : Z) (fails : bool)
    : Z * list Byte.byte * descriptor :=
  if fails || (INT_MAX <? count) then (-1, [], fd)
  else
    let got := take (Z.to_nat count) (drop (Z.to_nat (position fd)) (content fd)) in
    (Z.of_nat (length got), got,
     {| content := content fd; position := position fd + Z.of_nat (length got) |}).

(** [Status Read(uint64_t offset, size_t n, Slice* result, char* scratch)],
    the whole body being run with [mu_] held: the status, [*result] if it
    is assigned, and the object after. *)
Definition Read (offset n : Z) (refused fails : bool) (s : t)
    : Status * option (list Byte.byte) * t :=
  let '(where_, fd1) := _lseeki64 (fd_ s) (to_int64 offset) refused in
  if where_ =? -1 then
    (IOError_errno (filename_ s) EINVAL, None, {| filename_ := filename_ s; fd_ := fd1 |})
  else
    let '(r, scratch, fd2) := _read fd1 (to_uint n) fails in
    let result := take (Z.to_nat (if r <? 0 then 0 else r)) scratch in
    let s' := {| filename_ := filename_ s; fd_ := fd2 |} in
    if r <? 0 then (IOError_errno (filename_ s) EIO, Some result, s')
    else (OK, Some result, s').

(** [NewRandomAccessFile] on an existing file. *)
Definition opened_at (fname : string) (bytes : list Byte.byte) : t :=
  {| filename_ := fname; fd_ := {| content := bytes; position := 0 |} |}.

(** [Read] calls with the system's answers, to range over the states of
    the descriptor. *)
Definition after (calls : list (Z * Z * bool * bool)) (s : t) : t :=
  foldl (fun s '(offset, n, refused, fails) => (Read offset n refused fails s).2)
        s calls.

End RandomFile.

(** ** Files by name *)

Module Disk.

(** The regular files of the file system: the bytes under each name. *)
Abbreviation files := (gmap string (list Byte.byte)).

Definition ENOENT : nat := 2.

(** [fopen(fname, "rb")] and [_open(fname, _O_RDONLY ...)]: the bytes of
    the file, or the [errno] of the failure; [denied] is a refusal by
    the system of a file that exists. *)
Definition open_for_reading (fname : string) (denied : option nat) (d : files)
    : list Byte.byte + nat :=
  match denied with
  | Some e => inr e
  | None =>
      match d !! fname with
      | Some bytes => inl bytes
      | None => inr ENOENT
      end
  end.

(** [Status NewSequentialFile(fname, SequentialFile** result)]: the
    status and [*result], [None] for [nullptr]. *)
Definition NewSequentialFile (fname : string) (denied : option nat) (d : files)
    : Status * option SeqFile.t :=
  match open_for_reading fname denied d with
  | inr e => (IOError_errno fname e, None)
  | inl bytes => (OK, Some (SeqFile.open fname bytes))
  end.

(** [Status NewRandomAccessFile(fname, RandomAccessFile** result)]. *)
Definition NewRandomAccessFile (fname : string) (denied : option nat) (d : files)
    : Status * option RandomFile.t :=
  match open_for_reading fname denied d with
  | inr e => (IOError_errno fname e, None)
  | inl bytes => (OK, Some (RandomFile.opened_at fname bytes))
  end.

(** [Status NewWritableFile(fname, WritableFile** result)]: the status,
    [*result] if it is assigned, and the files.  [opened] says whether
    the constructor's [file_.open] attaches the file, which truncates or
    creates it; [exn] is an exception raised by the construction. *)
Definition NewWritableFile (fname : string) (opened : bool) (exn : option string)
    (d : files) : Status * option Writable.t * files :=
  match exn with
  | Some what => (IOError fname what, None, d)
  | None =>
      (OK, Some (Writable.new fname opened),
       if opened then <[fname := []]> d else d)
  end.

(** [Status GetFileSize(fname, uint64_t* size)]: the status and [*size]. *)
Definition GetFileSize (fname : string) (d : files) : Status * Z :=
  match d !! fname with
  | Some bytes => (OK, Z.of_nat (length bytes))
  | None => (IOError fname "No such file or directory", 0)
  end.

(** The files once the system holds, under the path of [w], the bytes
    that the stream of [w] has handed to it. *)
Definition stored (w : Writable.t) (d : files) : files :=
  <[Writable.path_ w := Writable.handed (Writable.file_ w)]> d.

(** What [Append] returns when the stream is not good after the write. *)
Definition cannot_write (w : Writable.t) : Writable.result Status :=
  Writable.Return (IOError (Writable.path_ w +:+ " Append") "cannot write").

(** [Append] of each piece in turn, with the outcome of each write. *)
Fixpoint append_all (pieces : list (list Byte.byte * Writable.outcome))
    (w : Writable.t) : list (Writable.result Status) * Writable.t :=
  match pieces with
  | [] => ([], w)
  | (data, o) :: pieces' =>
      let '(r, w1) := Writable.Append data o w in
      let '(rs, w2) := append_all pieces' w1 in
      (r :: rs, w2)
  end.

End Disk.

(** ** Sequences of LockFile and UnlockFile *)

Module LockCalls.

Import Lock.

(** The calls a client makes, with the system's answers. *)
Inductive call :=
  | CLock (fname : string) (denied : bool) (errMsg : option string)
  | CUnlock (lock : nat).

(** The world after the calls; [None] once a call had no defined
    behaviour. *)
Fixpoint run (cs : list call) (w : world) : option world :=
  match cs with
  | [] => Some w
  | CLock fname denied errMsg :: cs' => run cs' (LockFile fname denied errMsg w).2
  | CUnlock lock :: cs' =>
      match UnlockFile lock w with
      | Returns _ w' => run cs' w'
      | Undefined => None
      end
  end.

(** What holds of every world reached from the empty one. *)
Record Inv (w : world) : Prop := mkInv {
  inv_one_handle : forall h1 h2 p,
    handles w !! h1 = Some p -> handles w !! h2 = Some p -> h1 = h2;
  inv_handle_range : forall h p,
    handles w !! h = Some p -> 0 <= h < next_handle w;
  inv_next_handle : 0 <= next_handle w;
  inv_lock_owns : forall a h,
    heap w !! a = Some h -> is_Some (handles w !! h);
  inv_one_lock : forall a1 a2 h,
    heap w !! a1 = Some h -> heap w !! a2 = Some h -> a1 = a2;
  inv_addr_range : forall a h,
    heap w !! a = Some h -> (0 < a <= next_addr w)%nat;
  inv_handle_owned : forall h p,
    handles w !! h = Some p -> exists a, heap w !! a = Some h
}.

End LockCalls.

(** ** More directory operations *)

Module Dir.

Import Fs.

(** [bool FileExists(const std::string& fname)]. *)
Definition FileExists (fs : gmap path node) (fname : path) : bool := exists_ fs fname.

(** [q] is strictly below [p]. *)
Definition below (p q : path) : bool :=
  bool_decide (p `prefix_of` q) && negb (bool_decide (q = p)).

Definition has_entries (fs : gmap path node) (p : path) : bool :=
  existsb (fun kv => below p kv.1) (map_to_list fs).

(** [exp_fs::remove(p, ec)]: the returned [bool], the message of [ec] when
    it is set, and the file system.  A path that does not exist is not an
    error; a directory is removed only if it is empty; [denied] is a
    refusal by the system. *)
Definition remove (denied : bool) (p : path) (fs : gmap path node)
    : bool * option string * gmap path node :=
  match fs !! p with
  | None => (false, None, fs)
  | Some k =>
      if denied then (false, Some "Access is denied", fs)
      else
        match k with
        | File => (true, None, delete p fs)
        | Dir =>
            if has_entries fs p
            then (false, Some "The directory is not empty", fs)
            else (true, None, delete p fs)
        end
  end.

(** [Status DeleteFile(const std::string& fname)]. *)
Definition DeleteFile (denied : bool) (fname : path) (fs : gmap path node)
    : Status * gmap path node :=
  let '(_, ec, fs') := remove denied fname fs in
  match ec with
  | Some m => (IOError (show fname) m, fs')
  | None => (OK, fs')
  end.



(** The name of [q] if [q] is an entry of the directory [dir]. *)
Definition child_of (dir q : path) : option string :=
  if bool_decide (q = dir ++ drop (length dir) q /\ length q = S (length dir))
  then last q else None.

Definition entries (fs : gmap path node) (dir : path) : list string :=
  omap (fun kv => child_of dir kv.1) (map_to_list fs).

(** [Status GetChildren(dir, std::vector<std::string>* result)]: the
    status and [*result], which is cleared first whatever it held.  The
    iterator cannot be made when the system refuses or [dir] is not a
    directory. *)
Definition GetChildren (refused : bool) (dir : path) (fs : gmap path node)
    (result : list string) : Status * list string :=
  match (if refused then None else fs !! dir) with
  | Some Dir => (OK, entries fs dir)
  | _ => (IOError (show dir) "The system cannot find the path specified", [])
  end.

(** [Status GetTestDirectory(std::string* result)]: the status,
    [*result] and the file system.  [temp] is [temp_directory_path] when
    it is found, [pid] the process identifier in decimal. *)
Definition GetTestDirectory (temp : option path) (pid : string)
    (denied : path -> bool) (fs : gmap path node)
    : Status * path * gmap path node :=
  let temp_dir := match temp with Some t => t | None => ["tmp"] end in
  let temp_dir := (temp_dir ++ ["leveldb_tests"]) ++ [pid] in
  let '(_, fs') := CreateDir denied temp_dir fs in
  (OK, temp_dir, fs').

End Dir.

(** ** Dates in the calendar *)

Module Stamp.

Import Logger.

(** The time of day and the date are in their calendar ranges. *)
Definition calendar (st : SYSTEMTIME) : bool :=
  (wYear st <? 10000)%N && (wMonth st <? 100)%N && (wDay st <? 100)%N &&
  (wHour st <? 100)%N && (wMinute st <? 100)%N && (wSecond st <? 100)%N &&
  (wMilliseconds st <? 1000)%N.

End Stamp.

(* ================================================================== *)
(** * Properties *)

(** ** _WinSequentialFile *)

Section SeqFileFacts.
Import SeqFile.

Lemma wf_open fname c : wf (open fname c).
Proof. split; simpl; [lia | discriminate]. Qed.

Lemma length_remaining f :
  0 <= pos f ->
  Z.of_nat (length (remaining f)) = Z.max 0 (Z.of_nat (length (content f)) - pos f).
Proof. intros Hp. unfold remaining. rewrite length_drop. lia. Qed.

Lemma remaining_nil_at_eof s :
  wf s -> eof_ind (file_ s) = true -> remaining (file_ s) = [].
Proof.
  intros [Hp He] E. specialize (He E).
  apply nil_length_inv. pose proof (length_remaining (file_ s) Hp). lia.
Qed.

Lemma Read_state n d s :
  (Read n d s).2 = {| filename_ := filename_ s; file_ := (fread (file_ s) n d).2 |}.
Proof.
  unfold Read. destruct (fread (file_ s) n d) as [result f'].
  destruct (_ <? n)%nat; [destruct (feof f') |]; reflexivity.
Qed.

Lemma fread_normal_wf f n got :
  0 <= pos f -> got = take n (remaining f) ->
  0 <= pos f + Z.of_nat (length got) /\
  ((length got <? n)%nat = true ->
   Z.of_nat (length (content f)) <= pos f + Z.of_nat (length got)).
Proof.
  intros Hp ->. split; [lia |].
  intros Hlt. apply Nat.ltb_lt in Hlt. rewrite length_take in *.
  pose proof (length_remaining f Hp). lia.
Qed.

Lemma wf_Read n d s : wf s -> wf (Read n d s).2.
Proof.
  intros [Hp He]. rewrite Read_state. unfold wf, fread. cbn [file_].
  destruct (eof_ind (file_ s)) eqn:E; [cbn [snd]; by rewrite E |].
  destruct d as [k|]; [destruct (k <? n)%nat |]; cbn [snd pos eof_ind content].
  - split; [lia | discriminate].
  - by apply fread_normal_wf.
  - by apply fread_normal_wf.
Qed.

Lemma wf_Skip n refused s : wf s -> wf (Skip n refused s).2.
Proof.
  intros [Hp He]. unfold Skip, fseek_cur.
  destruct refused; [done |].
  destruct (_ <? 0) eqn:L; [done |].
  apply Z.ltb_ge in L. split; simpl; [lia | discriminate].
Qed.

Lemma wf_after cs s : wf s -> wf (after cs s).
Proof.
  revert s. induction cs as [|c cs IH]; intros s Hs; [done |].
  simpl. apply IH. destruct c; [by apply wf_Read | by apply wf_Skip].
Qed.

Lemma length_take_ltb (n : nat) (l : list Byte.byte) :
  (length (take n l) <? n)%nat = (length l <? n)%nat.
Proof.
  rewrite length_take. destruct (length l <? n)%nat eqn:L.
  - apply Nat.ltb_lt. apply Nat.ltb_lt in L. lia.
  - apply Nat.ltb_ge. apply Nat.ltb_ge in L. lia.
Qed.

Lemma fread_no_failure n d s :
  wf s -> device_fails (file_ s) n d = false ->
  (fread (file_ s) n d).1 = take n (remaining (file_ s)) /\
  eof_ind (fread (file_ s) n d).2 =
    eof_ind (file_ s) || (length (remaining (file_ s)) <? n)%nat.
Proof.
  intros Hwf Hd. unfold fread, device_fails in *.
  destruct (eof_ind (file_ s)) eqn:E.
  - rewrite (remaining_nil_at_eof s Hwf E), take_nil. cbn. by rewrite E.
  - cbn [negb andb] in Hd. destruct d as [k|]; [rewrite Hd |];
      cbn [fst snd eof_ind orb]; by rewrite length_take_ltb.
Qed.

(** The components of [Read] when the device does not fail. *)
Lemma Read_no_failure n d s :
  wf s -> device_fails (file_ s) n d = false ->
  (Read n d s).1 = (OK, take n (remaining (file_ s))) /\
  eof_ind (file_ (Read n d s).2) =
    eof_ind (file_ s) || (length (remaining (file_ s)) <? n)%nat.
Proof.
  intros Hwf Hd. destruct (fread_no_failure n d s Hwf Hd) as [H1 H2].
  split; [| by rewrite Read_state].
  unfold Read. destruct (fread (file_ s) n d) as [result f'].
  cbn [fst snd] in *. subst result. unfold feof. rewrite H2, length_take_ltb.
  destruct (length (remaining (file_ s)) <? n)%nat; [| done].
  by rewrite orb_true_r.
Qed.

(** [Read] when the device fails: a short result and an I/O error. *)
Lemma Read_failure n d s :
  device_fails (file_ s) n d = true ->
  exists result, (Read n d s).1 = (IOError_errno (filename_ s) EIO, result) /\
                 (length result < n)%nat.
Proof.
  unfold device_fails, Read, fread. intros Hd.
  destruct (eof_ind (file_ s)); [done |].
  destruct d as [k|]; [| done]. cbn [negb andb] in Hd. rewrite Hd.
  cbv zeta.
  assert ((length (take k (remaining (file_ s))) <? n)%nat = true) as ->.
  { apply Nat.ltb_lt. apply Nat.ltb_lt in Hd. rewrite length_take. lia. }
  cbn [feof eof_ind fst]. eexists. split; [done |].
  rewrite length_take. apply Nat.ltb_lt in Hd. lia.
Qed.

(** C3.  On every handle reached from a freshly opened file by any
    sequence of [Read] and [Skip] calls, and for every [n] and every
    answer [d] of the device: [Read n] succeeds with fewer than [n]
    bytes exactly when fewer than [n] bytes remain and the device did
    not fail (the end of the file was reached); it returns an I/O error
    exactly when the device fails; without a failure the result is the
    next [n] bytes or all that remain, and after such a short read every
    further [Read] returns the empty slice with status OK. *)
Theorem Read_short_at_eof_error_on_failure
    (fname : string) (content : list Byte.byte) (cs : list call)
    (n : nat) (d : fault) :
  let s := after cs (open fname content) in
  let st := (Read n d s).1.1 in
  let result := (Read n d s).1.2 in
  let s' := (Read n d s).2 in
  ((st = OK /\ (length result < n)%nat) <->
   ((length (remaining (file_ s)) < n)%nat /\
    device_fails (file_ s) n d = false)) /\
  (is_io_error st = true <-> device_fails (file_ s) n d = true) /\
  (device_fails (file_ s) n d = false ->
   result = take n (remaining (file_ s))) /\
  ((length (remaining (file_ s)) < n)%nat ->
   device_fails (file_ s) n d = false ->
   result = remaining (file_ s) /\
   forall m d', (Read m d' s').1 = (OK, [])).
Proof.
  intros s st result s'.
  assert (Hwf : wf s) by (apply wf_after, wf_open).
  destruct (device_fails (file_ s) n d) eqn:Hd.
  - destruct (Read_failure n d s Hd) as (res & Hr & Hlen).
    subst st result. rewrite Hr. cbn.
    repeat split; try done; intros; try done.
    all: try (destruct H; done).
  - destruct (Read_no_failure n d s Hwf Hd) as [Hr He].
    subst st result. rewrite Hr. cbn -[take].
    split; [| split; [| split]].
    + rewrite length_take. split; [intros [_ ?] | intros [? _]]; split; try done; lia.
    + split; done.
    + done.
    + intros Hlt _. split; [by rewrite take_ge by lia |].
      intros m d'.
      assert (Hwf' : wf s') by apply wf_Read, Hwf.
      assert (He' : eof_ind (file_ s') = true).
      { subst s'. rewrite He. apply orb_true_iff. right. by apply Nat.ltb_lt. }
      assert (Hd' : device_fails (file_ s') m d' = false).
      { unfold device_fails. by rewrite He'. }
      destruct (Read_no_failure m d' s' Hwf' Hd') as [-> _].
      by rewrite (remaining_nil_at_eof s' Hwf' He'), take_nil.
Qed.

(** A file of three bytes read with [n = 5]: the three bytes come back
    with status OK, and so does the empty slice on the next call. *)
Lemma Read_short_at_eof_error_on_failure_witness :
  let s := open "f" [Byte.x61; Byte.x62; Byte.x63] in
  (Read 5 None s).1 = (OK, [Byte.x61; Byte.x62; Byte.x63]) /\
  (Read 4 None (Read 5 None s).2).1 = (OK, []).
Proof.
  intros s.
  pose proof (Read_short_at_eof_error_on_failure
                "f" [Byte.x61; Byte.x62; Byte.x63] [] 5%nat None) as H.
  cbv zeta in H. destruct H as (_ & _ & _ & H).
  destruct H as [_ H]; [vm_compute; lia | reflexivity |].
  split; [reflexivity | apply H].
Defined.

End SeqFileFacts.

(** ** _WinSequentialFile::Skip *)

Section SkipFacts.
Import SeqFile.

Lemma to_long_small n : 0 <= n < 2 ^ 31 -> to_long n = n.
Proof.
  intros H. unfold to_long, long_bits.
  rewrite Z.mod_small by lia.
  change (32 - 1) with 31. destruct (n <? 2 ^ 31) eqn:E; [done |].
  apply Z.ltb_ge in E. lia.
Qed.

(** Below [2^31] the conversion is the identity, and [Skip] moves the
    position by [n] unless the device refuses the seek. *)
Lemma Skip_below_2_31 n s :
  wf s -> 0 <= n < 2 ^ 31 ->
  (Skip n false s).1 = OK /\
  pos (file_ (Skip n false s).2) = pos (file_ s) + n.
Proof.
  intros [Hp _] Hn. unfold Skip, fseek_cur. rewrite to_long_small by done.
  destruct (_ <? 0) eqn:E; [apply Z.ltb_lt in E; lia | done].
Qed.

(** C9.  [Skip(4294967296)] on a freshly opened three-byte file: the
    argument reaches [fseek] as the [long] 0, the call returns OK, the
    position stays 0, and the next [Read(3)] returns the three bytes
    that should have been skipped.  With [n = 4294967295] after one
    byte was read the position moves back by one. *)
Theorem Skip_argument_narrowed_to_long :
  let s := open "f" [Byte.x61; Byte.x62; Byte.x63] in
  to_long 4294967296 = 0 /\
  Skip 4294967296 false s = (OK, s) /\
  pos (file_ (Skip 4294967296 false s).2) <> pos (file_ s) + 4294967296 /\
  (Read 3 None (Skip 4294967296 false s).2).1 =
    (OK, [Byte.x61; Byte.x62; Byte.x63]) /\
  (let s1 := (Read 1 None s).2 in
   (Skip 4294967295 false s1).1 = OK /\
   pos (file_ (Skip 4294967295 false s1).2) = pos (file_ s1) - 1).
Proof. vm_compute. repeat split; congruence. Qed.

End SkipFacts.

(** ** _WinWritableFile *)

Section WritableFacts.
Import Writable.

Lemma ofstream_flush_history o f :
  history (ofstream_flush o f).1 = history f ++ [EvFlush].
Proof. unfold ofstream_flush. destruct o; [destruct (_ && _) |..]; done. Qed.

Lemma ofstream_flush_is_open o f :
  is_open (ofstream_flush o f).1 = is_open f.
Proof.
  unfold ofstream_flush.
  destruct o; [destruct (good f), (is_open f) |..]; done.
Qed.

Lemma Sync_file o w :
  file_ (Sync o w).2 = (ofstream_flush o (file_ w)).1 /\
  path_ (Sync o w).2 = path_ w.
Proof.
  unfold Sync, Flush. destruct (ofstream_flush o (file_ w)) as [f [what|]]; done.
Qed.

(** C7.  For every state of the file and every outcome of the stream's
    flush, [Sync] returns the status and leaves the object that the
    specification's reading ("a flush, exceptions translated into an I/O
    error") gives; the object it leaves is the one [Flush] leaves; the
    only operation it adds to the history is one [EvFlush], so no
    request to commit to stable storage is issued; and its status is OK
    unless the flush raised. *)
Theorem Sync_is_exactly_Flush (o : outcome) (w : t) :
  Sync o w = Sync_as_specified o w /\
  (Sync o w).2 = (Flush o w).2 /\
  added w (Sync o w).2 = [EvFlush] /\
  added w (Flush o w).2 = [EvFlush] /\
  (EvCommit ∉ added w (Sync o w).2) /\
  (Sync o w).1 =
    match o with
    | Raises what => IOError (path_ w +:+ " sync") what
    | _ => OK
    end /\
  (Flush o w).1 =
    match o with
    | Raises what => Throw what
    | _ => Return OK
    end.
Proof.
  assert (Hadd : added w (Flush o w).2 = [EvFlush]).
  { unfold added, Flush.
    pose proof (ofstream_flush_history o (file_ w)) as Hh.
    destruct (ofstream_flush o (file_ w)) as [f [what|]]; cbn in *;
      rewrite Hh, drop_app_length; done. }
  assert (Heq : (Sync o w).2 = (Flush o w).2).
  { unfold Sync. destruct (Flush o w) as [[st|what] w']; done. }
  repeat split.
  - unfold Sync, Sync_as_specified, Flush.
    destruct (ofstream_flush o (file_ w)) as [f [what|]]; done.
  - done.
  - by rewrite Heq.
  - done.
  - rewrite Heq, Hadd. by intros ?%list_elem_of_singleton.
  - unfold Sync, Flush, ofstream_flush.
    destruct o; [destruct (_ && _) |..]; done.
  - unfold Flush, ofstream_flush.
    destruct o; [destruct (_ && _) |..]; done.
Qed.

Lemma added_app w w' l :
  history (file_ w') = history (file_ w) ++ l -> added w w' = l.
Proof. intros H. unfold added. by rewrite H, drop_app_length. Qed.

Lemma Close_open o1 o2 w :
  is_open (file_ w) = true ->
  (Close o1 o2 w).1 =
    match o2 with
    | Raises what => IOError (path_ w +:+ " close") what
    | _ => OK
    end /\
  added w (Close o1 o2 w).2 = [EvFlush; EvClose] /\
  is_open (file_ (Close o1 o2 w).2) = false.
Proof.
  intros Ho. unfold Close. rewrite Ho.
  destruct (Sync_file o1 w) as [Hf Hp].
  pose proof (ofstream_flush_history o1 (file_ w)) as Hh.
  destruct (Sync o1 w) as [st w1]. cbn [snd] in *.
  assert (Hc : history (ofstream_close o2 (file_ w1)).1 =
               history (file_ w) ++ [EvFlush; EvClose]).
  { rewrite Hf. unfold ofstream_close. destruct o2; cbn [fst history];
      rewrite Hh, <- app_assoc; done. }
  assert (Hi : is_open (ofstream_close o2 (file_ w1)).1 = false).
  { unfold ofstream_close. destruct o2; done. }
  assert (He : (ofstream_close o2 (file_ w1)).2 =
               match o2 with Raises what => Some what | _ => None end).
  { unfold ofstream_close. destruct o2; done. }
  destruct (ofstream_close o2 (file_ w1)) as [f exn]. cbn [fst snd] in *.
  subst exn. destruct o2; cbn [fst snd]; (split; [done |]);
    (split; [by apply added_app | done]).
Qed.

Lemma Close_not_open o1 o2 w :
  is_open (file_ w) = false -> Close o1 o2 w = (OK, w).
Proof. intros Ho. unfold Close. by rewrite Ho. Qed.

Lemma Close_releases o1 o2 w : is_open (file_ (Close o1 o2 w).2) = false.
Proof.
  destruct (is_open (file_ w)) eqn:Ho.
  - by apply Close_open.
  - by rewrite Close_not_open.
Qed.

(** C5, as the code has it.  On a file whose stream is open, [Close]
    adds exactly a flush (the one of [Sync]) and then a close of the
    stream, leaves the stream released, and returns OK unless the close
    raised an exception, which becomes an I/O error.  On a file whose
    stream is not open, which is the state after any [Close] and also
    the state of a new file whose open failed, [Close] returns OK and
    changes nothing: every call after the first, and the one made by the
    destructor, adds no flush and no close.  [Close] is a total function
    into [Status]: no exception leaves it. *)
Theorem Close_sync_then_close_once (o1 o2 : outcome) (w : t) :
  (is_open (file_ w) = true ->
   added w (Close o1 o2 w).2 = [EvFlush; EvClose] /\
   (Close o1 o2 w).1 =
     match o2 with
     | Raises what => IOError (path_ w +:+ " close") what
     | _ => OK
     end) /\
  (is_open (file_ w) = false -> Close o1 o2 w = (OK, w)) /\
  is_open (file_ (Close o1 o2 w).2) = false /\
  (forall o3 o4,
     Close o3 o4 (Close o1 o2 w).2 = (OK, (Close o1 o2 w).2) /\
     destroy o3 o4 (Close o1 o2 w).2 = (Close o1 o2 w).2 /\
     added (Close o1 o2 w).2 (Close o3 o4 (Close o1 o2 w).2).2 = []).
Proof.
  split; [| split; [| split]].
  - intros Ho. destruct (Close_open o1 o2 w Ho) as (? & ? & ?). done.
  - apply Close_not_open.
  - apply Close_releases.
  - intros o3 o4. unfold destroy.
    rewrite (Close_not_open o3 o4 _ (Close_releases o1 o2 w)). cbn [snd].
    repeat split. unfold added. by rewrite drop_all.
Qed.

(** A file opened with success, appended to, then closed twice. *)
Lemma Close_sync_then_close_once_witness :
  let w := (Append [Byte.x68; Byte.x69] Works (new "db/LOG" true)).2 in
  added w (Close Works Works w).2 = [EvFlush; EvClose] /\
  (Close Works Works w).1 = OK /\
  handed (file_ (Close Works Works w).2) = [Byte.x68; Byte.x69] /\
  Close Works Works (Close Works Works w).2 = (OK, (Close Works Works w).2).
Proof.
  intros w.
  destruct (Close_sync_then_close_once Works Works w) as (H1 & _ & _ & H4).
  destruct H1 as [Ha Hs]; [reflexivity |].
  destruct (H4 Works Works) as (Hc & _ & _).
  split; [exact Ha |]. split; [exact Hs |]. split; [reflexivity | exact Hc].
Defined.

(** C5 as it is worded fails on a file whose open failed: the first
    [Close] performs neither the flush nor the close. *)
Lemma Close_first_call_without_sync_or_close :
  ~ (forall (path : string) (opened : bool) (o1 o2 : outcome),
       added (new path opened) (Close o1 o2 (new path opened)).2
       = [EvFlush; EvClose]).
Proof. intros H. specialize (H "db/LOG" false Works Works). discriminate H. Qed.

End WritableFacts.

(** ** UnlockFile *)

Section LockFacts.
Import Lock.

Lemma delete_lock_live lock h w :
  heap w !! lock = Some h ->
  delete_lock lock w =
    Returns tt {| handles := handles (destroy h w);
                  heap := delete lock (heap w);
                  next_handle := next_handle w;
                  next_addr := next_addr w |}.
Proof.
  intros H. unfold delete_lock. rewrite H. unfold destroy.
  case_bool_decide; done.
Qed.

(** [UnlockFile] on a pointer to a live lock object. *)
Lemma UnlockFile_live lock h w :
  lock <> nullptr -> heap w !! lock = Some h ->
  exists w',
    UnlockFile lock w = Returns OK w' /\
    heap w' = delete lock (heap w) /\
    handles w' = (if bool_decide (h ≠ INVALID_HANDLE_VALUE)
                  then delete h (handles w) else handles w) /\
    UnlockFile lock w' = Undefined.
Proof.
  intros Hn Hl. unfold UnlockFile.
  rewrite (bool_decide_eq_true_2 _ Hn), (delete_lock_live lock h w Hl).
  eexists. split; [reflexivity |]. cbn [heap handles].
  split; [done |]. split.
  - unfold destroy. case_bool_decide; done.
  - unfold delete_lock. cbn [heap]. by rewrite lookup_delete_eq.
Qed.

(** C8, as the code has it.  [UnlockFile] called with the null pointer
    returns OK and changes nothing.  Called with a pointer to a live
    lock object it returns OK, the handle the object holds is closed
    (unless it is the invalid handle) and the object is deleted; the
    same pointer is then dangling, and a second [UnlockFile] on it
    deletes a deleted object, for which no behaviour is defined.
    Whenever [UnlockFile] returns, its status is OK. *)
Theorem UnlockFile_null_or_live (lock : nat) (w : world) :
  (lock = nullptr -> UnlockFile lock w = Returns OK w) /\
  (forall h, lock <> nullptr -> heap w !! lock = Some h ->
     exists w',
       UnlockFile lock w = Returns OK w' /\
       heap w' = delete lock (heap w) /\
       handles w' = (if bool_decide (h ≠ INVALID_HANDLE_VALUE)
                     then delete h (handles w) else handles w) /\
       UnlockFile lock w' = Undefined) /\
  (forall st w', UnlockFile lock w = Returns st w' -> st = OK).
Proof.
  split; [| split].
  - intros ->. reflexivity.
  - intros h. apply UnlockFile_live.
  - intros st w'. unfold UnlockFile. case_bool_decide.
    + destruct (delete_lock lock w); [| done]. by intros [= <- _].
    + by intros [= <- _].
Qed.

(** The lock taken on "LOCK" in an empty world, then released: the path
    is free again, and the pointer no longer designates an object. *)
Lemma UnlockFile_null_or_live_witness :
  let r := LockFile "LOCK" false None empty_world in
  let lock := r.1.2 in
  let w := r.2 in
  exists w',
    UnlockFile lock w = Returns OK w' /\
    held "LOCK" w = true /\ held "LOCK" w' = false /\
    UnlockFile lock w' = Undefined.
Proof.
  intros r lock w.
  destruct (UnlockFile_null_or_live lock w) as (_ & H & _).
  destruct (H 0) as (w' & Hu & Hh & Hd & Hu2);
    [vm_compute; lia | reflexivity |].
  exists w'. split; [exact Hu |]. split; [reflexivity |]. split; [| exact Hu2].
  unfold held. rewrite Hd. reflexivity.
Defined.

(** C8 as it is worded fails: after a successful [UnlockFile], a second
    one on the same pointer does not return. *)
Lemma UnlockFile_twice_not_a_no_op :
  ~ (forall (lock : nat) (w w' : world),
       UnlockFile lock w = Returns OK w' ->
       UnlockFile lock w' = Returns OK w').
Proof.
  intros H.
  pose (r := LockFile "LOCK" false None empty_world).
  destruct (UnlockFile_live r.1.2 0 r.2) as (w' & Hu & _ & _ & Hu2);
    [vm_compute; lia | reflexivity |].
  specialize (H _ _ _ Hu). rewrite Hu2 in H. discriminate H.
Qed.

End LockFacts.

(** ** CreateDir *)

Section FsFacts.
Import Fs.

Lemma create_directories_from_frame denied rest :
  forall parent created fs q x,
    fs !! q = Some x ->
    (create_directories_from denied parent rest created fs).2 !! q = Some x.
Proof.
  induction rest as [|c rest IH]; intros parent created fs q x Hq; [done |].
  cbn [create_directories_from].
  destruct (fs !! (parent ++ [c])) as [[]|] eqn:E; [by apply IH | done |].
  destruct (denied (parent ++ [c])); [done |].
  apply IH. rewrite lookup_insert_ne; [done |]. intros Heq. rewrite Heq in E. congruence.
Qed.

Lemma create_directories_from_made denied rest :
  forall parent created fs,
    (create_directories_from denied parent rest created fs).1.1 = true ->
    (rest = [] -> created = true) /\
    Forall (fun q => (create_directories_from denied parent rest created fs).2 !! q
                     = Some Dir)
           (prefixes_from parent rest).
Proof.
  induction rest as [|c rest IH]; intros parent created fs Hm.
  - split; [done | constructor].
  - split; [done |]. cbn [create_directories_from prefixes_from] in *.
    destruct (fs !! (parent ++ [c])) as [[]|] eqn:E; [| done |].
    + destruct (IH _ _ _ Hm) as [_ HF]. constructor; [| done].
      by apply create_directories_from_frame.
    + destruct (denied (parent ++ [c])); [done |].
      destruct (IH _ _ _ Hm) as [_ HF]. constructor; [| done].
      apply create_directories_from_frame, lookup_insert_eq.
Qed.

Lemma prefixes_from_last parent rest :
  rest <> [] -> parent ++ rest ∈ prefixes_from parent rest.
Proof.
  revert parent. induction rest as [|c rest IH]; intros parent Hne; [done |].
  cbn [prefixes_from]. destruct rest as [|c' rest].
  - apply list_elem_of_here.
  - apply list_elem_of_further.
    replace (parent ++ c :: c' :: rest) with ((parent ++ [c]) ++ c' :: rest)
      by (by rewrite <- app_assoc).
    by apply IH.
Qed.

Lemma is_directory_lookup (fs : gmap path node) (p : path) :
  is_directory fs p = true <-> fs !! p = Some Dir.
Proof. unfold is_directory. destruct (fs !! p) as [[]|]; done. Qed.

Lemma CreateDir_early (denied : path -> bool) (name : path) (fs : gmap path node) :
  is_directory fs name = true -> CreateDir denied name fs = (OK, fs).
Proof.
  intros H. unfold CreateDir. rewrite H.
  apply is_directory_lookup in H. unfold exists_. by rewrite H.
Qed.

Lemma CreateDir_late (denied : path -> bool) (name : path) (fs : gmap path node) :
  is_directory fs name = false ->
  CreateDir denied name fs =
    let '(made, ec, fs') := create_directories denied name fs in
    if negb made then (IOError (show name) (ec_message ec), fs') else (OK, fs').
Proof. intros H. unfold CreateDir. by rewrite H, andb_false_r. Qed.

(** C10.  If [name] exists and is a directory, [CreateDir] returns OK
    and the file system is the one it was given.  Otherwise, when it
    returns OK every non-empty prefix of [name], and [name] itself, is a
    directory afterwards, and when it does not return OK it returns an
    I/O error.  In every case no entry that existed is changed, and
    after an OK a second [CreateDir] on the same name returns OK and
    changes nothing. *)
Theorem CreateDir_idempotent
    (denied : path -> bool) (name : path) (fs : gmap path node) :
  let st := (CreateDir denied name fs).1 in
  let fs' := (CreateDir denied name fs).2 in
  (is_directory fs name = true -> st = OK /\ fs' = fs) /\
  (is_directory fs name = false ->
     (st = OK /\ Forall (fun q => fs' !! q = Some Dir) (prefixes name))
     \/ is_io_error st = true) /\
  (st = OK -> is_directory fs' name = true) /\
  (forall q x, fs !! q = Some x -> fs' !! q = Some x) /\
  (st = OK -> forall denied', CreateDir denied' name fs' = (OK, fs')).
Proof.
  intros st fs'.
  assert (Hframe : forall q x, fs !! q = Some x -> fs' !! q = Some x).
  { subst fs'. destruct (is_directory fs name) eqn:Hd.
    - by rewrite CreateDir_early.
    - rewrite CreateDir_late by done. intros q x Hq.
      pose proof (create_directories_from_frame denied name [] false fs q x Hq) as H.
      unfold create_directories.
      destruct (create_directories_from denied [] name false fs) as [[made ec] fs1].
      by destruct made. }
  assert (Hlate : is_directory fs name = false -> st = OK ->
            Forall (fun q => fs' !! q = Some Dir) (prefixes name) /\ name <> []).
  { intros Hd. subst st fs'. rewrite CreateDir_late by done.
    pose proof (create_directories_from_made denied name [] false fs) as H.
    unfold create_directories, prefixes.
    destruct (create_directories_from denied [] name false fs) as [[made ec] fs1].
    destruct made; [| done]. intros _. cbn [fst snd negb] in *.
    destruct (H eq_refl) as [Hne HF]. split; [done |].
    intros ->. by specialize (Hne eq_refl). }
  assert (Hdir : st = OK -> is_directory fs' name = true).
  { intros Hok. destruct (is_directory fs name) eqn:Hd.
    - subst fs'. by rewrite CreateDir_early.
    - destruct (Hlate eq_refl Hok) as [HF Hne].
      apply is_directory_lookup.
      rewrite Forall_forall in HF. apply HF.
      by apply (prefixes_from_last [] name). }
  split; [| split; [| split; [| split]]].
  - intros Hd. subst st fs'. by rewrite CreateDir_early.
  - intros Hd. destruct st eqn:Hst; [left | by right].
    split; [done |]. by apply Hlate.
  - done.
  - done.
  - intros Hok denied'. by apply CreateDir_early, Hdir.
Qed.

(** "db" and "db/tmp" are created under an existing file "LOCK"; a second
    call changes nothing. *)
Lemma CreateDir_idempotent_witness :
  let fs : gmap path node := {[ ["LOCK"] := File ]} in
  let fs' := (CreateDir (fun _ => false) ["db"; "tmp"] fs).2 in
  (CreateDir (fun _ => false) ["db"; "tmp"] fs).1 = OK /\
  fs' !! ["db"] = Some Dir /\ fs' !! ["db"; "tmp"] = Some Dir /\
  fs' !! ["LOCK"] = Some File /\
  CreateDir (fun _ => true) ["db"; "tmp"] fs' = (OK, fs').
Proof.
  intros fs fs'.
  destruct (CreateDir_idempotent (fun _ => false) ["db"; "tmp"] fs)
    as (_ & _ & _ & Hf & Hi).
  split; [reflexivity |]. split; [reflexivity |]. split; [reflexivity |].
  split; [apply Hf; reflexivity | apply Hi; reflexivity].
Defined.

End FsFacts.

(** ** StartThread *)

Section ThreadFacts.
Import Thread.

(** C4.  Whatever the function and its argument, and whatever the
    process was doing, [StartThread] destroys a joinable [std::thread]
    on its way out: [std::terminate] is called and the process is
    terminated when the call ends. *)
Theorem StartThread_terminates_the_process (function arg : nat) (p : process) :
  terminated (StartThread function arg p) = true /\
  running (StartThread function arg p) = [].
Proof. split; reflexivity. Qed.

End ThreadFacts.

(** ** _WinLogger::Logv *)

Section LoggerFacts.
Import Logger.

Lemma digits_aux_length (base : N) (fuel : nat) :
  (2 <= base)%N ->
  forall (k : nat) (n : N) (acc : list Byte.byte),
    (1 <= k)%nat -> (n < base ^ N.of_nat k)%N ->
    (length (digits_aux base fuel n acc) <= k + length acc)%nat.
Proof.
  intros Hb. induction fuel as [|fuel IH]; intros k n acc Hk Hn.
  - cbn. lia.
  - cbn [digits_aux]. destruct (n / base =? 0)%N eqn:E.
    + cbn. lia.
    + apply N.eqb_neq in E.
      destruct k as [|[|k]]; [lia | |].
      * exfalso. apply E. apply N.div_small. by rewrite N.pow_1_r in Hn.
      * etransitivity; [apply (IH (S k)); [lia |] |].
        -- apply N.Div0.div_lt_upper_bound.
           replace (N.of_nat (S (S k))) with (N.succ (N.of_nat (S k))) in Hn by lia.
           by rewrite N.pow_succ_r' in Hn.
        -- cbn. lia.
Qed.

Lemma digits_aux_nonempty base fuel n acc :
  (length acc <= length (digits_aux base (S fuel) n acc))%nat /\
  (1 <= length (digits_aux base (S fuel) n acc))%nat.
Proof.
  revert n acc. induction fuel as [|fuel IH]; intros n acc.
  - cbn. destruct (n / base =? 0)%N; cbn; lia.
  - cbn [digits_aux]. destruct (n / base =? 0)%N; [cbn; lia |].
    destruct (IH (n / base)%N (digit_char (n mod base) :: acc)) as [H _].
    cbn [digits_aux length] in *. lia.
Qed.

Lemma fmt_0d_length w n :
  (w <= 5)%nat -> (n < 65536)%N -> (w <= length (fmt_0d w n) <= 5)%nat.
Proof.
  intros Hw Hn. unfold fmt_0d, digits. rewrite length_app, length_replicate.
  pose proof (digits_aux_length 10 (S (N.size_nat n)) ltac:(lia) 5 n [] ltac:(lia)) as H.
  cbn [length] in H. assert (n < 10 ^ N.of_nat 5)%N as Hn' by (cbn; lia).
  specialize (H Hn'). lia.
Qed.

Lemma fmt_llx_length n : (n < 2 ^ 64)%N -> (1 <= length (fmt_llx n) <= 16)%nat.
Proof.
  intros Hn. unfold fmt_llx, digits. split.
  - apply digits_aux_nonempty.
  - pose proof (digits_aux_length 16 (S (N.size_nat n)) ltac:(lia) 16 n [] ltac:(lia)) as H.
    cbn [length] in H. apply H. by change (16 ^ N.of_nat 16)%N with (2 ^ 64)%N.
Qed.

(** The header has between 26 and 59 characters. *)
Lemma header_length st thread_id :
  in_range st = true -> (thread_id < 2 ^ 64)%N ->
  (26 <= length (header st thread_id) <= 59)%nat.
Proof.
  unfold in_range. rewrite !andb_true_iff, !N.ltb_lt.
  intros [[[[[[H1 H2] H3] H4] H5] H6] H7] Ht.
  unfold header. rewrite !length_app. cbn [length].
  pose proof (fmt_0d_length 4 _ ltac:(lia) H1).
  pose proof (fmt_0d_length 2 _ ltac:(lia) H2).
  pose proof (fmt_0d_length 2 _ ltac:(lia) H3).
  pose proof (fmt_0d_length 2 _ ltac:(lia) H4).
  pose proof (fmt_0d_length 2 _ ltac:(lia) H5).
  pose proof (fmt_0d_length 2 _ ltac:(lia) H6).
  pose proof (fmt_0d_length 3 _ ltac:(lia) H7).
  pose proof (fmt_llx_length _ Ht).
  lia.
Qed.

Lemma is_nl_last_lookup (X rest : list Byte.byte) :
  (X ++ rest) !! Z.to_nat (Z.of_nat (length X) - 1) = last X \/ X = [].
Proof.
  destruct X as [|x X] using rev_ind; [by right | left].
  rewrite length_app. cbn [length].
  replace (Z.to_nat (Z.of_nat (length X + 1) - 1)) with (length X) by lia.
  rewrite last_snoc, <- app_assoc. cbn [app]. by rewrite list_lookup_middle.
Qed.

(** From "Add newline if necessary" on: when the buffer holds the
    non-empty text [X] up to the pointer, the line written is [X], with a
    newline after it if it does not end with one. *)
Lemma add_newline_and_write_spec (X rest : list Byte.byte) :
  X <> [] -> rest <> [] ->
  add_newline_and_write (X ++ rest) (Z.of_nat (length X)) = with_newline X.
Proof.
  intros HX Hr. unfold add_newline_and_write, with_newline.
  destruct (is_nl_last_lookup X rest) as [-> | ->]; [| done].
  assert ((Z.of_nat (length X) =? 0) = false) as ->.
  { apply Z.eqb_neq. destruct X; [done | cbn; lia]. }
  cbn [orb]. destruct (is_nl (last X)); cbn [negb].
  - by rewrite Nat2Z.id, take_app_length.
  - rewrite Nat2Z.id. unfold store. rewrite take_app_length.
    replace (Z.to_nat (Z.of_nat (length X) + 1)) with (length (X ++ [nl]))
      by (rewrite length_app; cbn; lia).
    by rewrite (app_assoc X [nl]), take_app_length.
Qed.

Lemma store_at_end (X Y bs : list Byte.byte) :
  store (X ++ Y) (length X) bs = X ++ bs ++ drop (length bs) Y.
Proof.
  unfold store. rewrite take_app_length. f_equal. f_equal.
  by rewrite drop_app_add'.
Qed.

(** The loop body when the header fits in the buffer. *)
Lemma Logv_body_spec first bufsize st thread_id msg :
  let hdr := header st thread_id in
  hdr <> [] -> Z.of_nat (length hdr) < bufsize ->
  Logv_body first bufsize st thread_id msg =
    if Z.of_nat (length (hdr ++ msg)) <? bufsize
    then Some (with_newline (hdr ++ msg))
    else if first then None
         else Some (with_newline (take (Z.to_nat (bufsize - 1)) (hdr ++ msg))).
Proof.
  intros hdr Hne Hfit. unfold Logv_body. fold hdr.
  unfold snprintf_s_TRUNCATE.
  replace (bufsize - 0) with bufsize by lia.
  destruct (Z.of_nat (length hdr) <? bufsize) eqn:E1;
    [clear E1 | apply Z.ltb_ge in E1; lia].
  replace (0 + Z.of_nat (length hdr)) with (Z.of_nat (length hdr)) by lia.
  destruct (Z.of_nat (length hdr) <? bufsize) eqn:E1;
    [clear E1 | apply Z.ltb_ge in E1; lia].
  unfold vsnprintf. rewrite Nat2Z.id.
  set (B := replicate (Z.to_nat bufsize) NUL).
  change (Z.to_nat 0) with (length (@nil Byte.byte)).
  rewrite (store_at_end [] B). cbn [app].
  rewrite <- app_assoc.
  set (R := [NUL] ++ drop (length (hdr ++ [NUL])) B).
  rewrite (store_at_end hdr R).
  set (size := bufsize - Z.of_nat (length hdr)).
  set (R2 := drop _ R).
  rewrite length_app.
  destruct (Z.of_nat (length hdr + length msg) <? bufsize) eqn:E.
  - apply Z.ltb_lt in E.
    assert ((Z.of_nat (length hdr) + Z.of_nat (length msg) >=? bufsize) = false) as ->
      by (rewrite Z.geb_leb; apply Z.leb_gt; lia).
    rewrite take_ge by lia.
    rewrite <- app_assoc, (app_assoc hdr msg).
    replace (Z.of_nat (length hdr) + Z.of_nat (length msg))
      with (Z.of_nat (length (hdr ++ msg))) by (rewrite length_app; lia).
    f_equal. apply add_newline_and_write_spec.
    + destruct hdr; done.
    + done.
  - apply Z.ltb_ge in E.
    assert ((Z.of_nat (length hdr) + Z.of_nat (length msg) >=? bufsize) = true) as ->
      by (rewrite Z.geb_leb; apply Z.leb_le; lia).
    destruct first; [done |]. f_equal.
    assert (HX : take (Z.to_nat (bufsize - 1)) (hdr ++ msg) =
                 hdr ++ take (Z.to_nat (size - 1)) msg).
    { rewrite take_app. rewrite take_ge by lia. f_equal. f_equal. lia. }
    rewrite HX, <- app_assoc, (app_assoc hdr (take _ msg)).
    replace (bufsize - 1) with
      (Z.of_nat (length (hdr ++ take (Z.to_nat (size - 1)) msg)))
      by (rewrite length_app, length_take; lia).
    apply add_newline_and_write_spec.
    + destruct hdr; done.
    + done.
Qed.

Lemma with_newline_last l : last (with_newline l) = Some nl.
Proof.
  unfold with_newline. destruct (is_nl (last l)) eqn:E.
  - unfold is_nl in E. destruct (last l) as [b|]; [| done].
    by apply Byte.byte_dec_bl in E as ->.
  - by rewrite last_snoc.
Qed.

Lemma with_newline_length l :
  (length l <= length (with_newline l) <= length l + 1)%nat.
Proof.
  unfold with_newline. destruct (is_nl (last l)); [lia |].
  rewrite length_app. cbn. lia.
Qed.

Lemma header_fits st thread_id bufsize :
  in_range st = true -> (thread_id < 2 ^ 64)%N -> 500 <= bufsize ->
  header st thread_id <> [] /\ Z.of_nat (length (header st thread_id)) < bufsize.
Proof.
  intros Hr Ht Hb. pose proof (header_length st thread_id Hr Ht) as H.
  split; [| lia]. intros E. rewrite E in H. cbn in H. lia.
Qed.

(** C6.  For local times [st0], [st1] with 16-bit fields, a thread
    identifier below [2^64] and a formatted message [msg], [Logv] adds to
    the log stream exactly one [fwrite] of one line followed by one
    [fflush].  The line is the header
    [%04d/%02d/%02d-%02d:%02d:%02d.%03d %llx ] followed by the message if
    both fit, with the terminating NUL, in the 500 bytes of the stack
    buffer; otherwise, with the header of the second reading of the clock,
    if they fit in the 30000 bytes of the heap buffer; otherwise their
    first 29999 bytes.  In each case a newline is added after the text if
    and only if the text does not already end with one, so that the line
    ends with a newline and never exceeds 30000 bytes. *)
Theorem Logv_writes_one_line
    (st0 st1 : SYSTEMTIME) (thread_id : N) (msg : list Byte.byte) (log : list op) :
  in_range st0 = true -> in_range st1 = true -> (thread_id < 2 ^ 64)%N ->
  let text :=
    if Z.of_nat (length (header st0 thread_id ++ msg)) <? stack_bufsize
    then header st0 thread_id ++ msg
    else if Z.of_nat (length (header st1 thread_id ++ msg)) <? heap_bufsize
    then header st1 thread_id ++ msg
    else take (Z.to_nat (heap_bufsize - 1)) (header st1 thread_id ++ msg) in
  let line := text ++ (if is_nl (last text) then [] else [nl]) in
  Logv st0 st1 thread_id msg log = log ++ [Fwrite line; Fflush] /\
  last line = Some nl /\
  Z.of_nat (length line) <= heap_bufsize /\
  (Logv_iter 0 st0 thread_id msg = None <->
   stack_bufsize <= Z.of_nat (length (header st0 thread_id ++ msg))) /\
  header st0 thread_id =
    fmt_0d 4 (wYear st0) ++ [Byte.x2f] ++ fmt_0d 2 (wMonth st0) ++ [Byte.x2f] ++
    fmt_0d 2 (wDay st0) ++ [Byte.x2d] ++ fmt_0d 2 (wHour st0) ++ [Byte.x3a] ++
    fmt_0d 2 (wMinute st0) ++ [Byte.x3a] ++ fmt_0d 2 (wSecond st0) ++ [Byte.x2e] ++
    fmt_0d 3 (wMilliseconds st0) ++ [Byte.x20] ++ fmt_llx thread_id ++ [Byte.x20].
Proof.
  intros H0 H1 Ht text line.
  assert (Hline : line = with_newline text).
  { subst line. unfold with_newline. destruct (is_nl (last text)); [| done].
    by rewrite app_nil_r. }
  destruct (header_fits st0 thread_id stack_bufsize H0 Ht ltac:(done)) as [Hn0 Hf0].
  destruct (header_fits st1 thread_id heap_bufsize H1 Ht ltac:(done)) as [Hn1 Hf1].
  pose proof (Logv_body_spec true stack_bufsize st0 thread_id msg Hn0 Hf0) as B0.
  pose proof (Logv_body_spec false heap_bufsize st1 thread_id msg Hn1 Hf1) as B1.
  cbv zeta in B0, B1.
  split; [| split; [| split; [| split]]].
  - unfold Logv, Logv_iter. cbn [Nat.eqb]. rewrite B0, B1, Hline. subst text.
    destruct (_ <? stack_bufsize); [done |].
    destruct (_ <? heap_bufsize); done.
  - rewrite Hline. apply with_newline_last.
  - rewrite Hline. pose proof (with_newline_length text) as Hl. subst text.
    destruct (_ <? stack_bufsize) eqn:E0;
      [apply Z.ltb_lt in E0; unfold stack_bufsize, heap_bufsize in *; lia |].
    destruct (_ <? heap_bufsize) eqn:E1; [apply Z.ltb_lt in E1; lia |].
    rewrite length_take in Hl. lia.
  - unfold Logv_iter. cbn [Nat.eqb]. rewrite B0.
    destruct (_ <? stack_bufsize) eqn:E0.
    + apply Z.ltb_lt in E0. split; [done | lia].
    + apply Z.ltb_ge in E0. done.
  - reflexivity.
Qed.

(** The line logged for "hello" at 14:05:59.007 on 2011/03/09 by the
    thread 0xbeef. *)
Lemma Logv_writes_one_line_witness :
  let st := {| wYear := 2011; wMonth := 3; wDay := 9; wHour := 14;
               wMinute := 5; wSecond := 59; wMilliseconds := 7 |} in
  in_range st = true /\ (48879 < 2 ^ 64)%N /\
  Logv st st 48879 (String.list_byte_of_string "hello") [] =
    [Fwrite (String.list_byte_of_string "2011/03/09-14:05:59.007 beef hello" ++ [nl]);
     Fflush].
Proof.
  intros st. split; [reflexivity |]. split; [reflexivity |].
  destruct (Logv_writes_one_line st st 48879 (String.list_byte_of_string "hello") [])
    as [H _]; [reflexivity | reflexivity | reflexivity |].
  rewrite H. vm_compute. reflexivity.
Defined.

End LoggerFacts.

(** ** The background queue *)

Section BGFacts.
Import Thread BG.
Local Open Scope nat_scope.


Lemma Inv_init progs : Inv (init progs).
Proof.
  split; cbn; try done.
  - intros i x Hx. unfold init in Hx. cbn in Hx.
    rewrite list_lookup_fmap in Hx. destruct (progs !! i); [| done].
    by injection Hx as <-.
  - intros i t b todo Hx. rewrite list_lookup_fmap in Hx.
    destruct (progs !! i); done.
Qed.

Lemma workers_shape s :
  Inv s -> workers s = [] /\ bgthread_ s = false \/
           exists w, workers s = [w] /\ bgthread_ s = true.
Proof.
  intros I. pose proof (inv_workers s I) as H.
  destruct (bgthread_ s), (workers s) as [|w [|w' l]]; cbn in H; try lia.
  - right. by exists w.
  - by left.
Qed.

Ltac step_inv H :=
  unfold step in H;
  repeat match type of H with
  | match ?x with _ => _ end = Some _ => destruct x eqn:?; try discriminate H
  | (if ?x then _ else _) = Some _ => destruct x eqn:?; try discriminate H
  end;
  injection H as <-.


Lemma existsb_at_notify_insert subs i x y :
  subs !! i = Some x -> at_notify x = false ->
  existsb at_notify subs = true ->
  existsb at_notify (<[i := y]> subs) = true.
Proof.
  intros Hx Hn. rewrite !existsb_exists. intros (z & Hz & Hnz).
  exists z. split; [| done].
  apply list_elem_of_In, list_elem_of_lookup in Hz as [k Hk].
  apply list_elem_of_In, list_elem_of_lookup. exists k.
  rewrite list_lookup_insert_ne; [done |].
  intros <-. congruence.
Qed.

Lemma existsb_at_notify_here subs i y :
  i < length subs -> at_notify y = true ->
  existsb at_notify (<[i := y]> subs) = true.
Proof.
  intros Hi Hy. rewrite existsb_exists. exists y. split; [| done].
  apply list_elem_of_In, list_elem_of_lookup. exists i.
  by apply list_lookup_insert_eq.
Qed.

Lemma step_ALock_Inv i s s' : Inv s -> step (ALock i) s = Some s' -> Inv s'.
Proof.
  intros I H. step_inv H. destruct I.
  split; cbn [mu_ bgthread_ queue_ submitters workers executed appended running] in *;
    try done.
  - intros i' x' [(-> & <- & _) | [Hne Hl]]%list_lookup_insert_Some Hc; [done |].
    specialize (inv_sub_holds0 _ _ Hl Hc). congruence.
  - intros i' [= <-]. eexists.
    split; [apply list_lookup_insert_eq; by eapply lookup_lt_Some | done].
  - intros j Hj. specialize (inv_wrk_holds0 _ Hj). congruence.
  - intros i' t' b todo [(-> & [=] & _) | [Hne Hl]]%list_lookup_insert_Some.
    by eapply inv_decided0.
  - intros Hq Hw. eapply existsb_at_notify_insert; eauto.
Qed.

Ltac inv_fields :=
  split; cbn [mu_ bgthread_ queue_ submitters workers executed appended] in *.

Lemma step_ADecide_Inv i s s' : Inv s -> step (ADecide i) s = Some s' -> Inv s'.
Proof.
  intros I H. step_inv H. destruct I.
  match goal with H : holds _ _ = true |- _ =>
    apply bool_decide_eq_true_1 in H; rename H into Hmu end.
  inv_fields; try done.
  - intros i' x' [(-> & <- & _) | [Hne Hl]]%list_lookup_insert_Some Hc; [done |].
    by eapply inv_sub_holds0.
  - intros i' Hi'. destruct (decide (i' = i)) as [-> | Hne].
    + eexists. split; [apply list_lookup_insert_eq; by eapply lookup_lt_Some | done].
    + destruct (inv_holds_sub0 _ Hi') as (x & Hx & Hc). exists x.
      by rewrite list_lookup_insert_ne.
  - intros i' t' b todo [(-> & [= <- <- <-] & _) | [Hne Hl]]%list_lookup_insert_Some;
      [done |]. by eapply inv_decided0.
  - intros Hq Hw. eapply existsb_at_notify_insert; eauto.
Qed.

Lemma running_nil_idle ws :
  Forall (fun w => running_of w = []) ws -> concat (map running_of ws) = [].
Proof. induction 1 as [|w ws Hw _ IH]; [done |]. cbn. by rewrite Hw, IH. Qed.

Lemma step_APush_Inv i s s' : Inv s -> step (APush i) s = Some s' -> Inv s'.
Proof.
  intros I H. pose proof (workers_shape s I) as Hshape. step_inv H. destruct I.
  match goal with H : holds _ _ = true |- _ =>
    apply bool_decide_eq_true_1 in H; rename H into Hmu end.
  match goal with H : submitters s !! i = Some _ |- _ =>
    pose proof (inv_decided0 _ _ _ _ H) as Hc end.
  inv_fields.
  - destruct Hshape as [[Hw Hb] | (w & Hw & Hb)]; rewrite Hw, Hb in *; by subst.
  - intros i' x' [(-> & <- & _) | [Hne Hl]]%list_lookup_insert_Some Hcr; [done |].
    specialize (inv_sub_holds0 _ _ Hl Hcr). congruence.
  - done.
  - intros j Hj. exfalso.
    destruct Hshape as [[Hw Hb] | (w & Hw & Hb)]; rewrite Hw, Hb in *; subst.
    + by destruct j as [|[|j]].
    + specialize (inv_wrk_holds0 _ Hj). congruence.
  - done.
  - intros i' t' b todo [(-> & [=] & _) | [Hne Hl]]%list_lookup_insert_Some.
    exfalso. apply Hne. specialize (inv_sub_holds0 _ _ Hl eq_refl). congruence.
  - rewrite <- inv_fifo0, <- !app_assoc. do 2 f_equal. unfold running. cbn [workers].
    destruct Hshape as [[Hw Hb] | (w & Hw & Hb)]; rewrite Hw, Hb in *; by subst.
  - split; [intros _; by destruct (appended s) | intros _].
    subst. by destruct (bgthread_ s).
  - intros _ _. eapply existsb_at_notify_here; [by eapply lookup_lt_Some | done].
Qed.

Lemma step_ANotify_Inv i j s s' : Inv s -> step (ANotify i j) s = Some s' -> Inv s'.
Proof.
  intros I H. pose proof (workers_shape s I) as Hshape.
  assert (Hsub : forall s1, submitters s !! i = Some {| s_pc := SNotify; s_todo := s1 |} ->
    (forall i' x, <[i := {| s_pc := SIdle; s_todo := s1 |}]> (submitters s) !! i' = Some x ->
       in_critical_section (s_pc x) = true -> mu_ s = Some (Submitter i')) /\
    (forall i', mu_ s = Some (Submitter i') ->
       exists x, <[i := {| s_pc := SIdle; s_todo := s1 |}]> (submitters s) !! i' = Some x /\
                 in_critical_section (s_pc x) = true) /\
    (forall i' t b todo,
       <[i := {| s_pc := SIdle; s_todo := s1 |}]> (submitters s) !! i'
         = Some {| s_pc := SDecided t b; s_todo := todo |} -> b = negb (bgthread_ s))).
  { intros s1 Hi. destruct I. split; [| split].
    - intros i' x [(-> & <- & _) | [Hne Hl]]%list_lookup_insert_Some Hcr; [done |].
      by eapply inv_sub_holds0.
    - intros i' Hi'. destruct (inv_holds_sub0 _ Hi') as (x & Hx & Hcr). exists x.
      split; [| done]. rewrite list_lookup_insert_ne; [done |]. intros <-.
      rewrite Hi in Hx. by injection Hx as <-.
    - intros i' t b todo [(-> & [=] & _) | [Hne Hl]]%list_lookup_insert_Some.
      by eapply inv_decided0. }
  step_inv H.
  all: destruct (Hsub _ eq_refl) as (S1 & S2 & S3); clear Hsub.
  all: destruct I; inv_fields; try done.
  all: try (destruct Hshape as [[Hw Hb] | (w' & Hw & Hb)]; rewrite Hw, Hb in *;
            destruct j as [|[|j]]; simplify_eq/=; done).
  all: try (intros _ Hex; congruence).
  - intros j' [(-> & [=] & _) | [Hne Hl]]%list_lookup_insert_Some. by apply inv_wrk_holds0.
  - intros j' Hj'. specialize (inv_holds_wrk0 _ Hj').
    rewrite list_lookup_insert_ne; [done |]. intros <-. congruence.
  - rewrite <- inv_fifo0. unfold running. cbn [workers].
    destruct Hshape as [[Hw Hb] | (w' & Hw & Hb)]; rewrite Hw in *;
      destruct j as [|[|j]]; by simplify_eq/=.
Qed.

Lemma step_worker_Inv a j s s' :
  a = WLock j \/ a = WTest j \/ a = WCall j \/ a = WSpurious j ->
  Inv s -> step a s = Some s' -> Inv s'.
Proof.
  intros Ha I H. pose proof (workers_shape s I) as Hshape.
  destruct Hshape as [[Hw Hb] | (w & Hw & Hb)];
    destruct Ha as [-> | [-> | [-> | ->]]]; step_inv H.
  all: try (rewrite Hw in *; discriminate).
  all: rewrite Hw in *; destruct j as [|[|j]]; simplify_eq/=.
  all: try match goal with H : holds _ _ = true |- _ =>
    apply bool_decide_eq_true_1 in H; rename H into Hmu end.
  all: destruct I; rewrite ?Hw, ?Hb in *.
  all: inv_fields; rewrite ?Hw, ?Hb in *; try done.
  all: unfold running in *; cbn [workers] in *; rewrite ?Hw in *; cbn in *.
  all: try (intros [|[|?]]; by simplify_eq/=).
  all: try (intros i x Hl Hcr; specialize (inv_sub_holds0 _ _ Hl Hcr); congruence).
  all: try (intros j' Hj'; specialize (inv_holds_wrk0 _ Hj');
            destruct j' as [|[|j']]; simplify_eq/=; done).
  all: try (intros j' [= <-]; done).
  all: try (by rewrite <- inv_fifo0, <- ?app_assoc).
  all: match goal with H : queue_ _ = _ |- _ => by rewrite <- inv_fifo0, H end.
Qed.

Lemma step_Inv a s s' : Inv s -> step a s = Some s' -> Inv s'.
Proof.
  destruct a.
  - apply step_ALock_Inv.
  - apply step_ADecide_Inv.
  - apply step_APush_Inv.
  - apply step_ANotify_Inv.
  - eapply step_worker_Inv; eauto.
  - eapply step_worker_Inv; eauto.
  - eapply step_worker_Inv; eauto.
  - eapply step_worker_Inv; eauto.
Qed.

Lemma run_Inv acts : forall s s', Inv s -> run acts s = Some s' -> Inv s'.
Proof.
  induction acts as [|a acts IH]; intros s s' I H; cbn in H.
  - by injection H as <-.
  - destruct (step a s) as [s1|] eqn:E; [| done].
    eapply IH; [| done]. by eapply step_Inv.
Qed.


(** *** Nothing is lost or duplicated *)

Lemma concat_map_insert_perm {A B : Type} (f : A -> list B) (l : list A) :
  forall i x y, l !! i = Some x ->
    f x ++ concat (map f (<[i := y]> l)) ≡ₚ f y ++ concat (map f l).
Proof.
  induction l as [|z l IH]; intros i x y Hl; [done |].
  destruct i as [|i]; cbn in *.
  - injection Hl as ->. apply Permutation_app_swap_app.
  - rewrite Permutation_app_swap_app, (IH _ _ _ Hl).
    apply Permutation_app_swap_app.
Qed.

Lemma sum_map_insert {A : Type} (g : A -> nat) (l : list A) :
  forall i x y, l !! i = Some x ->
    (sum_list (map g (<[i := y]> l)) + g x = sum_list (map g l) + g y)%nat.
Proof.
  induction l as [|z l IH]; intros i x y Hl; [done |].
  destruct i as [|i].
  - injection Hl as ->.
    change (g y + sum_list (map g l) + g x = g x + sum_list (map g l) + g y)%nat.
    lia.
  - specialize (IH i x y Hl).
    change (g z + sum_list (map g (<[i := y]> l)) + g x
            = g z + sum_list (map g l) + g y)%nat.
    lia.
Qed.

Lemma pending_insert_same subs i x y :
  subs !! i = Some x -> pending_of x = pending_of y ->
  concat (map pending_of (<[i := y]> subs)) ≡ₚ concat (map pending_of subs).
Proof.
  intros Hl He. pose proof (concat_map_insert_perm pending_of subs i x y Hl) as H.
  rewrite He in H. by apply Permutation_app_inv_l in H.
Qed.

Lemma step_tasks a s s' :
  step a s = Some s' -> appended s' ++ pending s' ≡ₚ appended s ++ pending s.
Proof.
  intros H. destruct a; step_inv H; unfold pending;
    cbn [appended submitters]; try done.
  all: try (apply Permutation_app_head; by eapply pending_insert_same).
  match goal with H : submitters s !! i = Some ?x |- _ =>
    pose proof (concat_map_insert_perm pending_of _ _ _
                  {| s_pc := SNotify; s_todo := s_todo x |} H) as HP end.
  cbn in HP. rewrite <- app_assoc. apply Permutation_app_head. cbn.
  apply (Permutation_app_inv_l s_todo0).
  by rewrite <- HP, Permutation_middle.
Qed.

Lemma run_tasks acts : forall s s',
  run acts s = Some s' -> appended s' ++ pending s' ≡ₚ appended s ++ pending s.
Proof.
  induction acts as [|a acts IH]; intros s s' H; cbn in H.
  - by injection H as <-.
  - destruct (step a s) as [s1|] eqn:E; [| done].
    rewrite (IH _ _ H). by eapply step_tasks.
Qed.

Lemma pending_init progs : pending (init progs) = concat progs.
Proof.
  unfold pending, init. cbn. rewrite map_map. cbn.
  by rewrite map_id.
Qed.

Lemma step_executed a s s' :
  step a s = Some s' -> executed s `prefix_of` executed s'.
Proof.
  intros H. destruct a; step_inv H; cbn; try done.
  by apply prefix_app_r.
Qed.

Lemma run_executed acts : forall s s',
  run acts s = Some s' -> executed s `prefix_of` executed s'.
Proof.
  induction acts as [|a acts IH]; intros s s' H; cbn in H.
  - by injection H as <-.
  - destruct (step a s) as [s1|] eqn:E; [| done].
    etransitivity; [by eapply step_executed | by eapply IH].
Qed.

Lemma run_app acts1 : forall acts2 s s1 s2,
  run acts1 s = Some s1 -> run acts2 s1 = Some s2 ->
  run (acts1 ++ acts2) s = Some s2.
Proof.
  induction acts1 as [|a acts1 IH]; intros acts2 s s1 s2 H1 H2; cbn in *.
  - by injection H1 as ->.
  - destruct (step a s) as [s'|]; [| done]. by eapply IH.
Qed.


(** *** Progress *)

Lemma existsb_lookup {A : Type} (p : A -> bool) (l : list A) :
  existsb p l = true -> exists i x, l !! i = Some x /\ p x = true.
Proof.
  intros (x & Hx & Hp)%existsb_exists.
  apply list_elem_of_In, list_elem_of_lookup in Hx as [i Hi]. eauto.
Qed.

Lemma existsb_false_lookup {A : Type} (p : A -> bool) (l : list A) i x :
  existsb p l = false -> l !! i = Some x -> p x = false.
Proof.
  intros He Hl. destruct (p x) eqn:Hp; [| done].
  rewrite <- He. symmetry. apply existsb_exists. exists x. split; [| done].
  apply list_elem_of_In, list_elem_of_lookup. eauto.
Qed.

Lemma concat_map_nil {A B : Type} (f : A -> list B) (l : list A) :
  (forall i x, l !! i = Some x -> f x = []) -> concat (map f l) = [].
Proof.
  induction l as [|z l IH]; intros H; [done |]. cbn.
  rewrite (H 0%nat z eq_refl), IH; [done |].
  intros i x Hl. by apply (H (S i)).
Qed.

Lemma sub_weight_insert subs i x y a b :
  subs !! i = Some x -> sub_weight x = a -> sub_weight y = b ->
  (sum_list (map sub_weight (<[i := y]> subs)) + a
   = sum_list (map sub_weight subs) + b)%nat.
Proof. intros Hl <- <-. by apply sum_map_insert. Qed.

Ltac measure_sub Hl y :=
  unfold measure; cbn [submitters workers queue_];
  match type of Hl with
  | _ = Some ?x =>
      let a := eval cbv [sub_weight s_pc s_todo] in (sub_weight x) in
      let b := eval cbv [sub_weight s_pc s_todo] in (sub_weight y) in
      pose proof (sub_weight_insert _ _ x y a b Hl eq_refl eq_refl)
  end;
  cbn [length] in *.

Lemma progress s :
  Inv s ->
  all_done s \/
  exists a s1, step a s = Some s1 /\ (measure s1 < measure s)%nat /\
               (forall j, a <> WSpurious j).
Proof.
  intros I. pose proof (workers_shape s I) as Hshape.
  destruct (mu_ s) as [[i|j]|] eqn:Hmu.
  - destruct (inv_holds_sub s I i Hmu) as ([pc todo] & Hl & Hc).
    destruct pc as [|t|t b|]; try done; right.
    + exists (ADecide i). eexists. unfold step, holds.
      rewrite Hl, Hmu, bool_decide_eq_true_2 by done.
      split; [reflexivity |]. split; [| done].
      measure_sub Hl {| s_pc := SDecided t (negb (bgthread_ s)); s_todo := todo |}.
      lia.
    + exists (APush i). eexists. unfold step, holds.
      rewrite Hl, Hmu, bool_decide_eq_true_2 by done.
      split; [reflexivity |]. split; [| done].
      pose proof (inv_decided s I _ _ _ _ Hl) as ->.
      measure_sub Hl {| s_pc := SNotify; s_todo := todo |}.
      rewrite length_app. cbn [length].
      destruct Hshape as [[Hw Hb] | (w & Hw & Hb)]; rewrite Hw, Hb in *; cbn in *; lia.
  - pose proof (inv_holds_wrk s I j Hmu) as Hj. right.
    destruct Hshape as [[Hw Hb] | (w & Hw & Hb)]; rewrite Hw in Hj;
      destruct j as [|[|j]]; simplify_eq/=.
    exists (WTest 0). unfold step, holds.
    rewrite Hw, Hmu, bool_decide_eq_true_2 by done. cbn.
    destruct (queue_ s) as [|f q] eqn:Hq; eexists; (split; [reflexivity |]);
      (split; [| done]); unfold measure; cbn [submitters workers queue_];
      rewrite ?Hw, ?Hq; cbn; lia.
  - destruct (existsb at_notify (submitters s)) eqn:En.
    { apply existsb_lookup in En as (i & [pc todo] & Hl & Hn). right.
      destruct pc; try done. exists (ANotify i 0).
      unfold step. rewrite Hl.
      destruct Hshape as [[Hw Hb] | (w & Hw & Hb)]; rewrite Hw; cbn.
      - eexists. split; [reflexivity |]. split; [| done].
        measure_sub Hl {| s_pc := SIdle; s_todo := todo |}. rewrite ?Hw. lia.
      - destruct w; cbn; eexists; (split; [reflexivity |]); (split; [| done]);
          measure_sub Hl {| s_pc := SIdle; s_todo := todo |};
          rewrite ?Hw; cbn; lia. }
    destruct (existsb can_start (submitters s)) eqn:Ec.
    { apply existsb_lookup in Ec as (i & [pc todo] & Hl & Hn). right.
      destruct pc; try done. destruct todo as [|t todo]; [done |].
      exists (ALock i). unfold step. rewrite Hmu, Hl.
      eexists. split; [reflexivity |]. split; [| done].
      measure_sub Hl {| s_pc := SLocked t; s_todo := todo |}. lia. }
    assert (Hp : pending s = []).
    { apply concat_map_nil. intros i [pc todo] Hl.
      pose proof (existsb_false_lookup _ _ _ _ En Hl) as H1.
      pose proof (existsb_false_lookup _ _ _ _ Ec Hl) as H2.
      pose proof (inv_sub_holds s I _ _ Hl) as H3.
      destruct pc; cbn in *; try done; try (specialize (H3 eq_refl); congruence).
      by destruct todo. }
    pose proof (inv_fifo s I) as Hf. unfold running in Hf.
    destruct Hshape as [[Hw Hb] | (w & Hw & Hb)]; rewrite Hw in Hf; cbn in Hf.
    { left. split; [done |].
      destruct (appended s) eqn:Ha; [by destruct (executed s) |].
      assert (bgthread_ s = true) by (apply (inv_started s I); by rewrite Ha).
      congruence. }
    destruct w as [| | |f].
    + right. exists (WLock 0). unfold step. rewrite Hmu, Hw. cbn.
      eexists. split; [reflexivity |]. split; [| done].
      unfold measure. cbn [submitters workers queue_]. rewrite Hw. cbn. lia.
    + pose proof (inv_wrk_holds s I 0%nat) as H. rewrite Hw in H.
      specialize (H eq_refl). congruence.
    + left. split; [done |].
      destruct (queue_ s) as [|f q] eqn:Hq; [by rewrite app_nil_r in Hf |].
      pose proof (inv_wakeup s I) as H. rewrite Hw, Hq in H.
      specialize (H ltac:(done) eq_refl). congruence.
    + right. exists (WCall 0). unfold step. rewrite Hw. cbn.
      eexists. split; [reflexivity |]. split; [| done].
      unfold measure. cbn [submitters workers queue_]. rewrite Hw. cbn. lia.
Qed.

(** From every state that satisfies the invariant some schedule runs
    every task. *)
Lemma drain n : forall s,
  Inv s -> (measure s < n)%nat ->
  exists acts s', run acts s = Some s' /\ all_done s'.
Proof.
  induction n as [|n IH]; intros s I Hm; [lia |].
  destruct (progress s I) as [Hd | (a & s1 & Hs & Hlt & _)].
  - exists [], s. done.
  - destruct (IH s1) as (acts & s' & Hr & Hd); [by eapply step_Inv | lia |].
    exists (a :: acts), s'. split; [| done]. cbn. by rewrite Hs.
Qed.

Lemma reachable_Inv progs acts s : run acts (init progs) = Some s -> Inv s.
Proof. intros H. eapply run_Inv; [apply Inv_init | done]. Qed.

Lemma running_length s : Inv s -> length (running s) <= 1.
Proof.
  intros I. unfold running.
  destruct (workers_shape s I) as [[-> _] | (w & -> & _)]; [cbn; lia |].
  destruct w; cbn; lia.
Qed.

(** C1.  In every state [s] that callers submitting the tasks of [progs]
    (one list per caller thread, any number of threads) reach under any
    interleaving [acts] of the steps of [Schedule] and [BGThread]: at
    most one thread runs [BGThread] and at most one task is being run;
    the tasks run so far, then the one being run, then the queue, are
    exactly the tasks appended so far, in the order of their
    [push_back]; the tasks appended together with those still to be
    submitted are the tasks of [progs], each as many times as it was
    submitted; if no step other than a spurious wake-up is enabled then
    every task has been run; and some continuation [acts'] leads to a
    state in which the tasks run are all the [M] tasks of [progs], in
    the order in which they were appended, those already run first. *)
Theorem Schedule_BGThread_run_each_task_once_in_order
    (progs : list (list task)) (acts : list action) (s : state) :
  run acts (init progs) = Some s ->
  length (workers s) <= 1 /\
  length (running s) <= 1 /\
  executed s ++ running s ++ queue_ s = appended s /\
  appended s ++ pending s ≡ₚ concat progs /\
  ((forall a, (forall j, a <> WSpurious j) -> step a s = None) -> all_done s) /\
  exists acts' s',
    run acts' s = Some s' /\
    executed s' = appended s' /\
    executed s' ≡ₚ concat progs /\
    length (executed s') = length (concat progs) /\
    executed s `prefix_of` executed s'.
Proof.
  intros Hr. pose proof (reachable_Inv _ _ _ Hr) as I.
  pose proof (run_tasks _ _ _ Hr) as Ht. cbn [init appended] in Ht.
  rewrite pending_init in Ht. cbn [app] in Ht.
  split; [| split; [| split; [| split; [| split]]]].
  - rewrite (inv_workers s I). destruct (bgthread_ s); lia.
  - by apply running_length.
  - apply (inv_fifo s I).
  - done.
  - intros Hstuck. destruct (progress s I) as [Hd | (a & s1 & Hs & _ & Ha)]; [done |].
    rewrite (Hstuck a Ha) in Hs. done.
  - destruct (drain (S (measure s)) s I ltac:(lia)) as (acts' & s' & Hr' & Hp & He).
    exists acts', s'.
    assert (HP : executed s' ≡ₚ concat progs).
    { pose proof (run_tasks _ _ _ (run_app _ _ _ _ _ Hr Hr')) as Ht'.
      cbn [init appended] in Ht'. rewrite pending_init, Hp, app_nil_r in Ht'.
      cbn [app] in Ht'. by rewrite He. }
    split; [done |]. split; [done |]. split; [done |].
    split; [by rewrite HP | by eapply run_executed].
Qed.

(** Two callers, one with the tasks 1 and 2 and one with the task 3: the
    first appends 1 and starts the worker, the second appends 3, the
    worker runs 1.  From there on the tasks 3 and 2 can still be run, and
    the three tasks end up run exactly once each. *)
Lemma Schedule_BGThread_run_each_task_once_in_order_witness :
  let t1 := {| function := 1; arg := 0 |} in
  let t2 := {| function := 2; arg := 0 |} in
  let t3 := {| function := 3; arg := 0 |} in
  let progs := [[t1; t2]; [t3]] in
  let acts := [ALock 0; ADecide 0; APush 0; ALock 1; ADecide 1; APush 1;
               ANotify 1 0; WLock 0; WTest 0; ANotify 0 0; WCall 0] in
  exists s,
    run acts (init progs) = Some s /\
    executed s = [t1] /\ queue_ s = [t3] /\ pending s = [t2] /\
    exists acts' s',
      run acts' s = Some s' /\
      executed s' ≡ₚ [t1; t2; t3] /\
      length (executed s') = 3 /\
      [t1] `prefix_of` executed s'.
Proof.
  intros t1 t2 t3 progs acts.
  assert (Hrun : exists s, run acts (init progs) = Some s /\
            executed s = [t1] /\ queue_ s = [t3] /\ pending s = [t2]).
  { eexists. split; [vm_compute; reflexivity |]. repeat split. }
  destruct Hrun as (s & Hr & He & Hq & Hp).
  exists s. split; [exact Hr |]. split; [exact He |]. split; [exact Hq |].
  split; [exact Hp |].
  destruct (Schedule_BGThread_run_each_task_once_in_order progs acts s Hr)
    as (_ & _ & _ & _ & _ & acts' & s' & Hr' & _ & HP & Hl & Hpre).
  exists acts', s'. split; [exact Hr' |]. split; [exact HP |].
  split; [exact Hl |]. by rewrite <- He.
Defined.

(** *** Schedule *)

Lemma ADecide_enabled s i t todo :
  Inv s -> submitters s !! i = Some {| s_pc := SLocked t; s_todo := todo |} ->
  mu_ s = Some (Submitter i) /\
  exists s', step (ADecide i) s = Some s' /\
    submitters s' !! i =
      Some {| s_pc := SDecided t (negb (bgthread_ s)); s_todo := todo |} /\
    mu_ s' = mu_ s /\ bgthread_ s' = bgthread_ s /\ queue_ s' = queue_ s /\
    workers s' = workers s /\ executed s' = executed s.
Proof.
  intros I Hl. pose proof (inv_sub_holds s I _ _ Hl eq_refl) as Hmu.
  split; [done |]. unfold step, holds.
  rewrite Hl, Hmu, bool_decide_eq_true_2 by done.
  eexists. split; [reflexivity |]. cbn.
  split; [| done]. apply list_lookup_insert_eq. by eapply lookup_lt_Some.
Qed.

Lemma APush_enabled s i t b todo :
  Inv s -> submitters s !! i = Some {| s_pc := SDecided t b; s_todo := todo |} ->
  mu_ s = Some (Submitter i) /\ b = negb (bgthread_ s) /\
  exists s', step (APush i) s = Some s' /\
    submitters s' !! i = Some {| s_pc := SNotify; s_todo := todo |} /\
    mu_ s' = None /\ bgthread_ s' = true /\
    queue_ s' = queue_ s ++ [t] /\
    workers s' = (if bgthread_ s then workers s else [WTop]) /\
    length (workers s') = 1%nat /\
    executed s' = executed s.
Proof.
  intros I Hl. pose proof (inv_sub_holds s I _ _ Hl eq_refl) as Hmu.
  pose proof (inv_decided s I _ _ _ _ Hl) as Hb.
  split; [done |]. split; [done |]. unfold step, holds.
  rewrite Hl, Hmu, bool_decide_eq_true_2 by done.
  eexists. split; [reflexivity |]. cbn. subst b.
  split; [apply list_lookup_insert_eq; by eapply lookup_lt_Some |].
  split; [done |].
  destruct (workers_shape s I) as [[Hw Hbg] | (w & Hw & Hbg)]; rewrite Hw, Hbg; done.
Qed.

Lemma ANotify_enabled s i todo :
  Inv s -> submitters s !! i = Some {| s_pc := SNotify; s_todo := todo |} ->
  exists s', step (ANotify i 0) s = Some s' /\
    submitters s' !! i = Some {| s_pc := SIdle; s_todo := todo |} /\
    mu_ s' = mu_ s /\ bgthread_ s' = bgthread_ s /\ queue_ s' = queue_ s /\
    executed s' = executed s /\
    existsb is_waiting (workers s') = false.
Proof.
  intros I Hl. unfold step. rewrite Hl.
  assert (Hi : <[i := {| s_pc := SIdle; s_todo := todo |}]> (submitters s) !! i
               = Some {| s_pc := SIdle; s_todo := todo |})
    by (apply list_lookup_insert_eq; by eapply lookup_lt_Some).
  destruct (workers_shape s I) as [[Hw Hbg] | (w & Hw & Hbg)]; rewrite Hw.
  - eexists. split; [reflexivity |]. done.
  - destruct w; cbn; eexists; (split; [reflexivity |]); cbn; rewrite ?Hw; done.
Qed.

Lemma ALock_enabled s i t todo :
  mu_ s = None ->
  submitters s !! i = Some {| s_pc := SIdle; s_todo := t :: todo |} ->
  exists s', step (ALock i) s = Some s' /\
    submitters s' !! i = Some {| s_pc := SLocked t; s_todo := todo |} /\
    mu_ s' = Some (Submitter i) /\ bgthread_ s' = bgthread_ s /\
    queue_ s' = queue_ s /\ workers s' = workers s /\ executed s' = executed s.
Proof.
  intros Hmu Hl. unfold step. rewrite Hmu, Hl.
  eexists. split; [reflexivity |]. cbn.
  split; [| done]. apply list_lookup_insert_eq. by eapply lookup_lt_Some.
Qed.

(** A call of [Schedule] that no other thread interleaves with. *)
Lemma Schedule_alone s i t todo :
  Inv s -> mu_ s = None ->
  submitters s !! i = Some {| s_pc := SIdle; s_todo := t :: todo |} ->
  exists s', Schedule i 0 s = Some s' /\
    submitters s' !! i = Some {| s_pc := SIdle; s_todo := todo |} /\
    mu_ s' = None /\ bgthread_ s' = true /\
    queue_ s' = queue_ s ++ [t] /\
    length (workers s') = 1%nat /\
    executed s' = executed s.
Proof.
  intros I Hmu Hl. unfold Schedule.
  destruct (ALock_enabled s i t todo Hmu Hl)
    as (s1 & H1 & Hl1 & _ & _ & Hq1 & _ & He1).
  rewrite H1. pose proof (step_Inv _ _ _ I H1) as I1.
  destruct (ADecide_enabled s1 i t todo I1 Hl1)
    as (_ & s2 & H2 & Hl2 & _ & _ & Hq2 & _ & He2).
  rewrite H2. pose proof (step_Inv _ _ _ I1 H2) as I2.
  destruct (APush_enabled s2 i t _ todo I2 Hl2)
    as (_ & _ & s3 & H3 & Hl3 & Hm3 & Hb3 & Hq3 & _ & Hw3 & He3).
  rewrite H3. pose proof (step_Inv _ _ _ I2 H3) as I3.
  destruct (ANotify_enabled s3 i todo I3 Hl3)
    as (s4 & H4 & Hl4 & Hm4 & Hb4 & Hq4 & He4 & _).
  exists s4. split; [done |]. split; [done |].
  pose proof (step_Inv _ _ _ I3 H4) as I4.
  pose proof (inv_workers s4 I4) as Hw4.
  split; [congruence |]. split; [congruence |]. split; [congruence |].
  split; [| congruence]. rewrite Hw4. by rewrite Hb4, Hb3.
Qed.

(** C2.  In every state [s] reached from a fresh environment: there is
    one thread running [BGThread] if a [push_back] has been made and
    none otherwise, never more; a caller that is between the [lock] and
    the [unlock] of [Schedule] owns the mutex; it evaluates [!bgthread_]
    and its decision is still right when it acts on it; its next step
    creates the thread if and only if none exists, appends its task at
    the tail of the queue and releases the mutex; then
    [notify_one] is enabled whatever the worker is doing, wakes the
    worker if it waits, and ends the call, with no task run by the
    caller and none awaited.  A call that nothing interleaves with
    returns with the task at the tail of the queue. *)
Theorem Schedule_appends_under_mutex_creates_worker_once
    (progs : list (list task)) (acts : list action) (s : state) :
  run acts (init progs) = Some s ->
  length (workers s) = (if bgthread_ s then 1 else 0)%nat /\
  (bgthread_ s = true <-> appended s <> []) /\
  (forall i x, submitters s !! i = Some x ->
     in_critical_section (s_pc x) = true -> mu_ s = Some (Submitter i)) /\
  (forall i t todo,
     submitters s !! i = Some {| s_pc := SLocked t; s_todo := todo |} ->
     exists s', step (ADecide i) s = Some s' /\
       submitters s' !! i =
         Some {| s_pc := SDecided t (negb (bgthread_ s)); s_todo := todo |}) /\
  (forall i t b todo,
     submitters s !! i = Some {| s_pc := SDecided t b; s_todo := todo |} ->
     b = negb (bgthread_ s) /\
     exists s', step (APush i) s = Some s' /\
       submitters s' !! i = Some {| s_pc := SNotify; s_todo := todo |} /\
       mu_ s' = None /\ bgthread_ s' = true /\
       queue_ s' = queue_ s ++ [t] /\
       workers s' = (if bgthread_ s then workers s else [WTop]) /\
       length (workers s') = 1%nat /\
       executed s' = executed s) /\
  (forall i todo,
     submitters s !! i = Some {| s_pc := SNotify; s_todo := todo |} ->
     exists s', step (ANotify i 0) s = Some s' /\
       submitters s' !! i = Some {| s_pc := SIdle; s_todo := todo |} /\
       queue_ s' = queue_ s /\ executed s' = executed s /\
       existsb is_waiting (workers s') = false) /\
  (forall i t todo,
     mu_ s = None ->
     submitters s !! i = Some {| s_pc := SIdle; s_todo := t :: todo |} ->
     exists s', Schedule i 0 s = Some s' /\
       submitters s' !! i = Some {| s_pc := SIdle; s_todo := todo |} /\
       mu_ s' = None /\ bgthread_ s' = true /\
       queue_ s' = queue_ s ++ [t] /\
       length (workers s') = 1%nat /\
       executed s' = executed s).
Proof.
  intros Hr. pose proof (reachable_Inv _ _ _ Hr) as I.
  split; [apply (inv_workers s I) |].
  split; [apply (inv_started s I) |].
  split; [apply (inv_sub_holds s I) |].
  split; [| split; [| split]].
  - intros i t todo Hl.
    destruct (ADecide_enabled s i t todo I Hl) as (_ & s' & H1 & H2 & _). eauto.
  - intros i t b todo Hl.
    destruct (APush_enabled s i t b todo I Hl) as (_ & Hb & H). done.
  - intros i todo Hl.
    destruct (ANotify_enabled s i todo I Hl)
      as (s' & H1 & H2 & _ & _ & H3 & H4 & H5). eauto 10.
  - intros i t todo Hmu Hl. by apply Schedule_alone.
Qed.

(** In a fresh environment with two callers, the first call of
    [Schedule] creates the worker and appends its task, and the second,
    by the other caller, appends behind it without creating a thread. *)
Lemma Schedule_appends_under_mutex_creates_worker_once_witness :
  let t1 := {| function := 1; arg := 0 |} in
  let t3 := {| function := 3; arg := 0 |} in
  let progs := [[t1]; [t3]] in
  exists s1 s2,
    Schedule 0 0 (init progs) = Some s1 /\
    queue_ s1 = [t1] /\ workers s1 = [WTop] /\ executed s1 = [] /\
    Schedule 1 0 s1 = Some s2 /\
    queue_ s2 = [t1; t3] /\ length (workers s2) = 1%nat /\ executed s2 = [].
Proof.
  intros t1 t3 progs.
  destruct (Schedule_appends_under_mutex_creates_worker_once progs [] (init progs) eq_refl)
    as (_ & _ & _ & _ & _ & _ & H).
  destruct (H 0%nat t1 [] eq_refl eq_refl) as (s1 & Hs1 & _).
  assert (Hr1 : exists s, Schedule 0 0 (init progs) = Some s /\
            queue_ s = [t1] /\ workers s = [WTop] /\ executed s = [] /\
            run [ALock 0; ADecide 0; APush 0; ANotify 0 0] (init progs) = Some s).
  { eexists. split; [vm_compute; reflexivity |]. repeat split. }
  destruct Hr1 as (s1' & Hs1' & Hq1 & Hw1 & He1 & Hrun).
  exists s1'.
  destruct (Schedule_appends_under_mutex_creates_worker_once progs _ s1' Hrun)
    as (_ & _ & _ & _ & _ & _ & H').
  assert (Hsub : mu_ s1' = None /\
            submitters s1' !! 1%nat = Some {| s_pc := SIdle; s_todo := [t3] |}).
  { rewrite Hs1 in Hs1'. injection Hs1' as <-.
    vm_compute in Hs1. injection Hs1 as <-. split; reflexivity. }
  destruct Hsub as [Hmu Hl].
  destruct (H' 1%nat t3 [] Hmu Hl) as (s2 & Hs2 & _ & _ & _ & Hq2 & Hw2 & He2).
  exists s2. rewrite Hq2, He2, Hq1, He1. done.
Defined.

End BGFacts.

(** ** Sequential reads in pieces *)

Section SeqReadFacts.
Import SeqFile SeqRead.

Lemma remaining_advance (c : list Byte.byte) (p : Z) (m : nat) (e r : bool) :
  0 <= p ->
  remaining {| content := c; pos := p + Z.of_nat m; eof_ind := e; err_ind := r |}
  = drop m (drop (Z.to_nat p) c).
Proof.
  intros Hp. unfold remaining. cbn [pos content]. rewrite drop_drop.
  f_equal. lia.
Qed.

Lemma drop_length_take (n : nat) (l : list Byte.byte) :
  drop (length (take n l)) l = drop n l.
Proof.
  rewrite length_take. destruct (decide (n <= length l)%nat).
  - f_equal. lia.
  - rewrite !drop_ge; [done | lia | lia].
Qed.

Lemma remaining_after_Read n d s :
  wf s -> device_fails (file_ s) n d = false ->
  remaining (file_ (Read n d s).2) = drop n (remaining (file_ s)).
Proof.
  intros Hwf Hd. rewrite Read_state. cbn [file_].
  unfold fread, device_fails in *.
  destruct (eof_ind (file_ s)) eqn:E.
  - cbn [snd]. by rewrite (remaining_nil_at_eof s Hwf E), drop_nil.
  - cbn [negb andb] in Hd. destruct Hwf as [Hp _].
    destruct d as [k|]; [rewrite Hd |]; cbn [snd];
      rewrite (remaining_advance _ _ _ _ _ Hp); apply drop_length_take.
Qed.

Lemma device_fails_None f n : device_fails f n None = false.
Proof. unfold device_fails. by rewrite andb_false_r. Qed.

Lemma read_chunks_spec ns : forall s,
  wf s ->
  Forall (fun r => r.1 = OK) (read_chunks ns s).1 /\
  concat (map snd (read_chunks ns s).1) = take (sum_list ns) (remaining (file_ s)) /\
  remaining (file_ (read_chunks ns s).2) = drop (sum_list ns) (remaining (file_ s)).
Proof.
  induction ns as [|n ns IH]; intros s Hwf.
  - cbn. by rewrite take_0, drop_0.
  - cbn [read_chunks].
    destruct (Read_no_failure n None s Hwf (device_fails_None _ _)) as [Hr _].
    pose proof (remaining_after_Read n None s Hwf (device_fails_None _ _)) as Hrem.
    pose proof (wf_Read n None s Hwf) as Hwf'.
    destruct (Read n None s) as [[st result] s1]. cbn [fst snd] in *.
    injection Hr as -> ->.
    destruct (IH s1 Hwf') as (H1 & H2 & H3).
    destruct (read_chunks ns s1) as [rest s2]. cbn [fst snd] in *.
    split; [by constructor |]. cbn [map concat sum_list sum_list_with snd].
    rewrite H2, H3, Hrem. split.
    + by rewrite take_take_drop.
    + by rewrite drop_drop.
Qed.

(** X1.  Reading a freshly opened file in pieces of any sizes, the device
    not failing: every [Read] returns OK, the slices put end to end are
    the first bytes of the file, as many as were asked for in total or
    the whole file if that is less, and what remains to be read is the
    rest of the file. *)
Theorem Read_in_pieces_reassembles_the_file
    (fname : string) (content : list Byte.byte) (ns : list nat) :
  let r := read_chunks ns (open fname content) in
  Forall (fun x => x.1 = OK) r.1 /\
  concat (map snd r.1) = take (sum_list ns) content /\
  remaining (file_ r.2) = drop (sum_list ns) content /\
  ((length content <= sum_list ns)%nat -> concat (map snd r.1) = content).
Proof.
  intros r. destruct (read_chunks_spec ns (open fname content) (wf_open _ _))
    as (H1 & H2 & H3).
  change (remaining (file_ (open fname content))) with content in *.
  repeat split; try done.
  intros Hle. subst r. rewrite H2. by apply take_ge.
Qed.

Lemma Skip_then_Read_wf (s : t) (k : Z) (n : nat) :
  wf s -> 0 <= k < 2 ^ 31 ->
  (Skip k false s).1 = OK /\
  (Read n None (Skip k false s).2).1
  = (OK, take n (drop (Z.to_nat k) (remaining (file_ s)))).
Proof.
  intros Hwf Hk. set (s1 := (Skip k false s).2).
  destruct (Skip_below_2_31 k s Hwf Hk) as [Hst Hpos].
  assert (Hwf1 : wf s1) by apply wf_Skip, Hwf.
  assert (Hrem : remaining (file_ s1) = drop (Z.to_nat k) (remaining (file_ s))).
  { assert (Hc : content (file_ s1) = content (file_ s)).
    { subst s1. unfold Skip, fseek_cur. cbn.
      destruct (_ <? 0); done. }
    unfold remaining. rewrite drop_drop, Hc. fold s1 in Hpos. rewrite Hpos.
    f_equal. destruct Hwf as [Hp _]. lia. }
  destruct (Read_no_failure n None s1 Hwf1 (device_fails_None _ _)) as [Hr _].
  split; [done |]. by rewrite Hr, Hrem.
Qed.

(** X2.  [Skip(k)] for [k] below [2^31], the seek not refused, then
    [Read(n)], the device not failing: the status is OK and the slice is
    the [n] bytes that follow the [k] skipped ones, or what is left of
    them; a skip past the end of the file is accepted and leaves nothing
    to read. *)
Theorem Skip_then_Read
    (fname : string) (bytes : list Byte.byte) (cs : list call) (k : Z) (n : nat) :
  0 <= k < 2 ^ 31 ->
  let s := after cs (open fname bytes) in
  let s1 := (Skip k false s).2 in
  (Skip k false s).1 = OK /\
  (Read n None s1).1 = (OK, take n (drop (Z.to_nat k) (remaining (file_ s)))) /\
  (Z.of_nat (length (remaining (file_ s))) <= k -> (Read n None s1).1 = (OK, [])).
Proof.
  intros Hk s s1.
  assert (Hwf : wf s) by apply wf_after, wf_open.
  destruct (Skip_then_Read_wf s k n Hwf Hk) as [H1 H2].
  split; [done |]. split; [done |].
  intros Hle. subst s1. rewrite H2, drop_ge by lia. by rewrite take_nil.
Qed.

Lemma Skip_then_Read_witness :
  let s := open "f" [Byte.x61; Byte.x62; Byte.x63; Byte.x64] in
  0 <= 1 < 2 ^ 31 /\
  (Read 2 None (Skip 1 false s).2).1 = (OK, [Byte.x62; Byte.x63]).
Proof.
  intros s. split; [lia |].
  destruct (Skip_then_Read "f" [Byte.x61; Byte.x62; Byte.x63; Byte.x64] [] 1 2%nat)
    as (_ & H & _); [lia |].
  exact H.
Defined.

End SeqReadFacts.

(** ** _WinRandomAccessFile::Read *)

Section RandomFileFacts.
Import RandomFile.

Lemma to_int64_small offset : 0 <= offset < 2 ^ 63 -> to_int64 offset = offset.
Proof.
  intros H. unfold to_int64. rewrite Z.mod_small by lia.
  destruct (offset <? 2 ^ 63) eqn:E; [done | apply Z.ltb_ge in E; lia].
Qed.

Lemma to_int64_large offset : 2 ^ 63 <= offset < 2 ^ 64 -> to_int64 offset < 0.
Proof.
  intros H. unfold to_int64. rewrite Z.mod_small by lia.
  destruct (offset <? 2 ^ 63) eqn:E; [apply Z.ltb_lt in E; lia | lia].
Qed.

Lemma to_uint_small n : 0 <= n <= INT_MAX -> to_uint n = n.
Proof. unfold INT_MAX, to_uint. intros H. apply Z.mod_small. lia. Qed.

Lemma Read_content offset n refused fails s :
  content (fd_ (Read offset n refused fails s).2) = content (fd_ s).
Proof.
  unfold Read, _lseeki64, _read.
  destruct (refused || _); cbn; [done |].
  destruct (_ =? -1); [done |].
  destruct (fails || _); cbn; [done |].
  destruct (_ <? 0); done.
Qed.

Lemma after_content calls : forall s, content (fd_ (after calls s)) = content (fd_ s).
Proof.
  induction calls as [|[[[offset n] refused] fails] calls IH]; intros s; [done |].
  cbn. unfold after in IH. rewrite IH. apply Read_content.
Qed.

(** [Read] when nothing fails, wherever the descriptor stands. *)
Lemma Read_ok offset n s :
  0 <= offset < 2 ^ 63 -> 0 <= n <= INT_MAX ->
  (Read offset n false false s).1 =
    (OK, Some (take (Z.to_nat n) (drop (Z.to_nat offset) (content (fd_ s))))).
Proof.
  intros Ho Hn. unfold Read, _lseeki64, _read.
  rewrite (to_int64_small _ Ho), (to_uint_small _ Hn). cbn [orb].
  assert ((offset <? 0) = false) as -> by (apply Z.ltb_ge; lia).
  assert ((offset =? -1) = false) as -> by (apply Z.eqb_neq; lia).
  assert ((INT_MAX <? n) = false) as -> by (apply Z.ltb_ge; lia).
  cbn [position content orb].
  set (got := take (Z.to_nat n) (drop (Z.to_nat offset) (content (fd_ s)))).
  assert ((Z.of_nat (length got) <? 0) = false) as -> by (apply Z.ltb_ge; lia).
  cbn [fst]. by rewrite Nat2Z.id, firstn_all.
Qed.

(** X3.  [Read(offset, n)] with [offset] below [2^63] and [n] at most
    [INT_MAX], the seek and the read not failing, on a descriptor that
    any earlier [Read] calls, failed or not, have left anywhere: the
    status is OK and the slice is the [n] bytes of the file from
    [offset] on, or those that exist; it does not depend on the earlier
    calls, and an offset at or past the end gives the empty slice with
    status OK. *)
Theorem RandomAccess_Read_depends_on_offset_only
    (fname : string) (bytes : list Byte.byte)
    (calls : list (Z * Z * bool * bool)) (offset n : Z) :
  0 <= offset < 2 ^ 63 -> 0 <= n <= INT_MAX ->
  let s := after calls (opened_at fname bytes) in
  (Read offset n false false s).1 =
    (OK, Some (take (Z.to_nat n) (drop (Z.to_nat offset) bytes))) /\
  (Read offset n false false s).1 =
    (Read offset n false false (opened_at fname bytes)).1 /\
  (Z.of_nat (length bytes) <= offset ->
   (Read offset n false false s).1 = (OK, Some [])).
Proof.
  intros Ho Hn s.
  assert (H : (Read offset n false false s).1 =
              (OK, Some (take (Z.to_nat n) (drop (Z.to_nat offset) bytes)))).
  { rewrite (Read_ok _ _ _ Ho Hn). subst s. by rewrite after_content. }
  split; [done |]. split.
  - by rewrite H, (Read_ok _ _ _ Ho Hn).
  - intros Hle. rewrite H, drop_ge by lia. by rewrite take_nil.
Qed.

Lemma RandomAccess_Read_depends_on_offset_only_witness :
  let bytes := [Byte.x61; Byte.x62; Byte.x63; Byte.x64] in
  let s := after [(3, 1, false, false); (0, 2, false, true)] (opened_at "f" bytes) in
  0 <= 1 < 2 ^ 63 /\ 0 <= 2 <= INT_MAX /\
  (Read 1 2 false false s).1 = (OK, Some [Byte.x62; Byte.x63]).
Proof.
  intros bytes s. split; [lia |]. split; [unfold INT_MAX; lia |].
  destruct (RandomAccess_Read_depends_on_offset_only "f" bytes
              [(3, 1, false, false); (0, 2, false, true)] 1 2)
    as (H & _); [lia | unfold INT_MAX; lia |].
  exact H.
Defined.

(** X4.  The failures of [Read(offset, n)].  When the seek is refused,
    or the offset is [2^63] or more (it reaches [_lseeki64] negative),
    the status is an I/O error, [*result] is not assigned and the
    descriptor is left where it was.  When the seek works and the read
    fails, the status is an I/O error and [*result] is the empty
    slice. *)
Theorem RandomAccess_Read_failures
    (offset n : Z) (refused fails : bool) (s : t) :
  (refused = true \/ 2 ^ 63 <= offset < 2 ^ 64 ->
   exists msg, Read offset n refused fails s = (IOError (filename_ s) msg, None, s)) /\
  (refused = false -> 0 <= offset < 2 ^ 63 -> fails = true ->
   exists msg, (Read offset n refused fails s).1 = (IOError (filename_ s) msg, Some [])).
Proof.
  split.
  - intros H. unfold Read, _lseeki64.
    assert (refused || (to_int64 offset <? 0) = true) as ->.
    { destruct H as [-> | H]; [done |]. apply orb_true_iff. right.
      apply Z.ltb_lt. by apply to_int64_large. }
    cbn. eexists. by destruct s.
  - intros -> Ho ->. unfold Read, _lseeki64, _read.
    rewrite (to_int64_small _ Ho). cbn [orb].
    assert ((offset <? 0) = false) as -> by (apply Z.ltb_ge; lia).
    assert ((offset =? -1) = false) as -> by (apply Z.eqb_neq; lia).
    cbn. eauto.
Qed.

Lemma RandomAccess_Read_failures_witness :
  let s := opened_at "f" [Byte.x61; Byte.x62] in
  (exists msg, Read (2 ^ 63) 1 false false s = (IOError "f" msg, None, s)) /\
  (exists msg, (Read 0 1 false true s).1 = (IOError "f" msg, Some [])).
Proof.
  intros s.
  destruct (RandomAccess_Read_failures (2 ^ 63) 1 false false s) as [H1 _].
  destruct (RandomAccess_Read_failures 0 1 false true s) as [_ H2].
  split; [apply H1; right; lia | apply H2; [reflexivity | lia | reflexivity]].
Defined.

End RandomFileFacts.

(** ** Writing a file and reading it back *)

Section DiskFacts.
Import Writable Disk.

Lemma Append_not_good data o w :
  good (file_ w) = false ->
  (Append data o w).1 = cannot_write w /\
  path_ (Append data o w).2 = path_ w /\
  good (file_ (Append data o w).2) = false /\
  is_open (file_ (Append data o w).2) = is_open (file_ w) /\
  buffer (file_ (Append data o w).2) = buffer (file_ w) /\
  handed (file_ (Append data o w).2) = handed (file_ w).
Proof. intros Hg. unfold Append, ofstream_write. rewrite Hg. done. Qed.

Lemma Append_error_not_good data o w c m :
  (Append data o w).1 = Return (IOError c m) ->
  good (file_ (Append data o w).2) = false.
Proof.
  unfold Append, ofstream_write.
  destruct (good (file_ w)); cbn; [| done]. destruct o; cbn; done.
Qed.

Lemma append_all_not_good pieces : forall w,
  good (file_ w) = false ->
  Forall (fun r => r = cannot_write w) (append_all pieces w).1 /\
  path_ (append_all pieces w).2 = path_ w /\
  is_open (file_ (append_all pieces w).2) = is_open (file_ w) /\
  buffer (file_ (append_all pieces w).2) = buffer (file_ w) /\
  handed (file_ (append_all pieces w).2) = handed (file_ w).
Proof.
  induction pieces as [|[data o] pieces IH]; intros w Hg; [done |].
  cbn [append_all].
  destruct (Append_not_good data o w Hg) as (H1 & H2 & H3 & H4 & H5 & H6).
  destruct (Append data o w) as [r w1]. cbn [fst snd] in *.
  destruct (IH w1 H3) as (I1 & I2 & I3 & I4 & I5).
  destruct (append_all pieces w1) as [rs w2]. cbn [fst snd] in *.
  split; [| by rewrite I2, I3, I4, I5].
  constructor; [done |]. unfold cannot_write in *. by rewrite <- H2.
Qed.

(** X5.  Once an [Append] has returned an I/O error, every later
    [Append] on the same file returns the I/O error "cannot write",
    whatever the device would answer, and adds nothing to the stream's
    buffer nor to what the system holds. *)
Theorem Append_error_is_sticky
    (data : list Byte.byte) (o : outcome) (w : t) (c m : string)
    (pieces : list (list Byte.byte * outcome)) :
  (Append data o w).1 = Return (IOError c m) ->
  let w1 := (Append data o w).2 in
  Forall (fun r => r = cannot_write w) (append_all pieces w1).1 /\
  buffer (file_ (append_all pieces w1).2) = buffer (file_ w1) /\
  handed (file_ (append_all pieces w1).2) = handed (file_ w1).
Proof.
  intros He w1. pose proof (Append_error_not_good _ _ _ _ _ He) as Hg.
  destruct (append_all_not_good pieces w1 Hg) as (H1 & _ & _ & H2 & H3).
  split; [| done]. 
  assert (Hp : path_ w1 = path_ w).
  { subst w1. unfold Append. destruct (ofstream_write data o (file_ w)) as [f [x|]];
      [done |]. by destruct (negb (good f)). }
  unfold cannot_write in *. by rewrite <- Hp.
Qed.

Lemma Append_error_is_sticky_witness :
  let w := new "db/000001.log" true in
  (Append [Byte.x61] Fails w).1 = cannot_write w /\
  (append_all [([Byte.x62], Works); ([Byte.x63], Works)] (Append [Byte.x61] Fails w).2).1
  = [cannot_write w; cannot_write w].
Proof.
  intros w. split; [reflexivity |].
  destruct (Append_error_is_sticky [Byte.x61] Fails w _ _
              [([Byte.x62], Works); ([Byte.x63], Works)] eq_refl) as (H & _).
  inversion H as [|? ? -> H']. inversion H' as [|? ? -> _]. reflexivity.
Defined.

(** X6.  [NewWritableFile] does not report that the file could not be
    opened: it returns OK.  On the file it returns, every [Append]
    returns the I/O error "cannot write", [Close] returns OK with
    nothing handed to the system, and the files are as they were. *)
Theorem NewWritableFile_hides_a_failed_open
    (fname : string) (d : files) (pieces : list (list Byte.byte * outcome))
    (o1 o2 : outcome) :
  let w := new fname false in
  NewWritableFile fname false None d = (OK, Some w, d) /\
  Forall (fun r => r = cannot_write w) (append_all pieces w).1 /\
  (Close o1 o2 (append_all pieces w).2).1 = OK /\
  handed (file_ (Close o1 o2 (append_all pieces w).2).2) = [].
Proof.
  intros w. split; [done |].
  destruct (append_all_not_good pieces w eq_refl) as (H1 & _ & H2 & _ & H3).
  split; [done |].
  rewrite Close_not_open by (by rewrite H2). cbn [fst snd]. by rewrite H3.
Qed.

Lemma append_all_works datas : forall w,
  good (file_ w) = true ->
  let r := append_all (map (fun x => (x, Works)) datas) w in
  Forall (fun x => x = Return OK) r.1 /\
  path_ r.2 = path_ w /\ good (file_ r.2) = true /\
  is_open (file_ r.2) = is_open (file_ w) /\
  buffer (file_ r.2) = buffer (file_ w) ++ concat datas /\
  handed (file_ r.2) = handed (file_ w).
Proof.
  induction datas as [|data datas IH]; intros w Hg; cbn zeta.
  - cbn. by rewrite app_nil_r.
  - cbn [map append_all].
    assert (HA : Append data Works w =
      (Return OK, with_file w {| is_open := is_open (file_ w); good := true;
                                 buffer := buffer (file_ w) ++ data;
                                 handed := handed (file_ w);
                                 history := history (file_ w) ++ [EvWrite data] |})).
    { unfold Append, ofstream_write. by rewrite Hg. }
    rewrite HA.
    match goal with |- context [append_all _ ?w'] =>
      destruct (IH w' eq_refl) as (I1 & I2 & I3 & I4 & I5 & I6) end.
    destruct (append_all _ _) as [rs w2]. cbn [fst snd] in *.
    split; [by constructor |]. rewrite I2, I3, I4, I5, I6. cbn.
    by rewrite <- app_assoc.
Qed.

(** X7.  A file created by [NewWritableFile] has size 0.  After any
    pieces have been appended to it with success and the file has been
    closed, with or without a [Sync] before, every call having returned
    OK, the system holds under that name exactly the pieces put end to
    end: [GetFileSize] returns their total length, and a sequential
    file opened on the name reads them back; the other files are as
    they were. *)
Theorem written_file_reads_back
    (fname : string) (d : files) (datas : list (list Byte.byte))
    (sync : bool) (n : nat) :
  let w0 := new fname true in
  let d0 := (NewWritableFile fname true None d).2 in
  let w1 := (append_all (map (fun x => (x, Works)) datas) w0).2 in
  let w2 := if sync then (Sync Works w1).2 else w1 in
  let w3 := (Close Works Works w2).2 in
  let d3 := stored w3 d0 in
  (NewWritableFile fname true None d).1 = (OK, Some w0) /\
  GetFileSize fname d0 = (OK, 0) /\
  Forall (fun x => x = Return OK)
         (append_all (map (fun x => (x, Works)) datas) w0).1 /\
  (Sync Works w1).1 = OK /\
  (Close Works Works w2).1 = OK /\
  GetFileSize fname d3 = (OK, Z.of_nat (length (concat datas))) /\
  (exists h, NewSequentialFile fname None d3 = (OK, Some h) /\
             (SeqFile.Read n None h).1 = (OK, take n (concat datas))) /\
  (forall other, other <> fname -> d3 !! other = d !! other).
Proof.
  intros w0 d0 w1 w2 w3 d3.
  destruct (append_all_works datas w0 eq_refl) as (A1 & A2 & A3 & A4 & A5 & A6).
  fold w1 in A2, A3, A4, A5, A6. cbn in A2, A4, A5, A6.
  assert (Hw2 : path_ w2 = fname /\ is_open (file_ w2) = true /\
                handed (file_ w2) ++ buffer (file_ w2) = concat datas).
  { subst w2. destruct sync; [| by rewrite A2, A4, A5, A6].
    unfold Sync, Flush, ofstream_flush. rewrite A3, A4. cbn.
    by rewrite A2, A5, A6, app_nil_r. }
  destruct Hw2 as (P2 & O2 & H2).
  assert (Hw3 : (Close Works Works w2).1 = OK /\ path_ w3 = fname /\
                handed (file_ w3) = concat datas).
  { subst w3. unfold Close. rewrite O2.
    destruct (Sync_file Works w2) as [Hf Hp].
    destruct (Sync Works w2) as [st w']. cbn [snd] in *.
    unfold ofstream_close. cbn. rewrite Hp, P2, Hf.
    split; [done |]. split; [done |].
    unfold ofstream_flush. destruct (good (file_ w2)); rewrite O2; cbn.
    - by rewrite app_nil_r.
    - done. }
  destruct Hw3 as (C3 & P3 & H3).
  assert (Hd3 : d3 !! fname = Some (concat datas)).
  { subst d3. unfold stored. by rewrite P3, H3, lookup_insert_eq. }
  split; [done |].
  split; [unfold GetFileSize; subst d0; cbn; by rewrite lookup_insert_eq |].
  split; [done |].
  split; [unfold Sync, Flush, ofstream_flush; by destruct (_ && _) |].
  split; [done |].
  split; [unfold GetFileSize; by rewrite Hd3 |].
  split.
  - unfold NewSequentialFile, open_for_reading. rewrite Hd3. eexists.
    split; [reflexivity |].
    destruct (Read_no_failure n None (SeqFile.open fname (concat datas))
                (wf_open _ _) (device_fails_None _ _)) as [Hr _].
    exact Hr.
  - intros other Hne. subst d3 d0. unfold stored. rewrite P3. cbn.
    by rewrite !lookup_insert_ne.
Qed.

End DiskFacts.

(** ** LockFile and UnlockFile together *)

Section LockCallsFacts.
Import Lock LockCalls.

Lemma held_lookup fname w :
  held fname w = true <-> exists h, handles w !! h = Some fname.
Proof.
  unfold held. rewrite bool_decide_eq_true, list_elem_of_fmap. split.
  - intros ([h p] & -> & Hin). exists h. by apply elem_of_map_to_list in Hin.
  - intros [h Hh]. exists (h, fname). split; [done |].
    by apply elem_of_map_to_list.
Qed.

Lemma held_false_lookup fname w h :
  held fname w = false -> handles w !! h <> Some fname.
Proof.
  intros Hf Hh. assert (held fname w = true) by (apply held_lookup; eauto).
  congruence.
Qed.

Lemma Inv_empty : Inv empty_world.
Proof. split; cbn; try done; try lia. Qed.

(** [LockFile] that fails leaves the world as it was. *)
Lemma LockFile_fails fname denied errMsg w :
  denied || held fname w = true ->
  exists c m, LockFile fname denied errMsg w = (IOError c m, nullptr, w).
Proof.
  intros H. unfold LockFile, CreateFile. rewrite H.
  rewrite bool_decide_eq_true_2 by done. destruct errMsg; eauto.
Qed.

(** [LockFile] that succeeds. *)
Lemma LockFile_succeeds fname errMsg w :
  Inv w -> held fname w = false ->
  let h := next_handle w in
  let a := S (next_addr w) in
  LockFile fname false errMsg w =
    (OK, a, {| handles := <[h := fname]> (handles w);
               heap := <[a := h]> (heap w);
               next_handle := h + 1; next_addr := a |}).
Proof.
  intros I Hh h a. unfold LockFile, CreateFile. rewrite Hh. cbn [orb].
  pose proof (inv_next_handle w I).
  rewrite Z.max_r by lia.
  rewrite bool_decide_eq_false_2; [done |]. unfold INVALID_HANDLE_VALUE. lia.
Qed.

Lemma LockFile_Inv fname denied errMsg w :
  Inv w -> Inv (LockFile fname denied errMsg w).2.
Proof.
  intros I. destruct (denied || held fname w) eqn:E.
  - destruct (LockFile_fails fname denied errMsg w E) as (c & m & ->). done.
  - apply orb_false_iff in E as [-> Hh].
    rewrite (LockFile_succeeds fname errMsg w I Hh). cbn [snd].
    destruct I. split; cbn [handles heap next_handle next_addr].
    + intros h1 h2 p [[-> <-] | [N1 H1]]%lookup_insert_Some
                     [[E2 E3] | [N2 H2]]%lookup_insert_Some; try done.
      * by destruct (held_false_lookup _ _ h2 Hh).
      * subst. by destruct (held_false_lookup _ _ h1 Hh).
      * by eapply inv_one_handle0.
    + intros h p [[<- <-] | [N1 H1]]%lookup_insert_Some; [lia |].
      specialize (inv_handle_range0 _ _ H1). lia.
    + lia.
    + intros a h [[<- <-] | [N1 H1]]%lookup_insert_Some.
      * by rewrite lookup_insert_eq.
      * destruct (inv_lock_owns0 _ _ H1) as [p Hp].
        exists p. rewrite lookup_insert_ne; [done |].
        intros <-. specialize (inv_handle_range0 _ _ Hp). lia.
    + intros a1 a2 h [[<- <-] | [N1 H1]]%lookup_insert_Some
                     [[E2 E3] | [N2 H2]]%lookup_insert_Some; try done.
      * destruct (inv_lock_owns0 _ _ H2) as [p Hp].
        specialize (inv_handle_range0 _ _ Hp). lia.
      * subst. destruct (inv_lock_owns0 _ _ H1) as [p Hp].
        specialize (inv_handle_range0 _ _ Hp). lia.
      * by eapply inv_one_lock0.
    + intros a h [[<- <-] | [N1 H1]]%lookup_insert_Some; [lia |].
      specialize (inv_addr_range0 _ _ H1). lia.
    + intros h p [[<- <-] | [N1 H1]]%lookup_insert_Some.
      * eexists. apply lookup_insert_eq.
      * destruct (inv_handle_owned0 _ _ H1) as [a Ha]. exists a.
        rewrite lookup_insert_ne; [done |]. intros <-.
        specialize (inv_addr_range0 _ _ Ha). lia.
Qed.

Lemma UnlockFile_Inv lock w st w' :
  Inv w -> UnlockFile lock w = Returns st w' -> Inv w'.
Proof.
  intros I. unfold UnlockFile. case_bool_decide as Hn; [| by intros [= _ <-]].
  unfold delete_lock. destruct (heap w !! lock) as [h|] eqn:Hl; [| done].
  intros [= _ <-]. destruct I.
  destruct (inv_lock_owns0 _ _ Hl) as [p Hp].
  pose proof (inv_handle_range0 _ _ Hp) as Hr.
  unfold destroy. rewrite bool_decide_eq_true_2
    by (unfold INVALID_HANDLE_VALUE; lia).
  split; cbn [handles heap next_handle next_addr CloseHandle].
  - intros h1 h2 q [_ H1]%lookup_delete_Some [_ H2]%lookup_delete_Some.
    by eapply inv_one_handle0.
  - intros h' q [_ H1]%lookup_delete_Some. by eapply inv_handle_range0.
  - done.
  - intros a h' [Na H1]%lookup_delete_Some.
    destruct (inv_lock_owns0 _ _ H1) as [q Hq]. exists q.
    rewrite lookup_delete_ne; [done |]. intros <-.
    apply Na. by eapply inv_one_lock0.
  - intros a1 a2 h' [_ H1]%lookup_delete_Some [_ H2]%lookup_delete_Some.
    by eapply inv_one_lock0.
  - intros a h' [_ H1]%lookup_delete_Some. by eapply inv_addr_range0.
  - intros h' q [Nh H1]%lookup_delete_Some.
    destruct (inv_handle_owned0 _ _ H1) as [a Ha]. exists a.
    rewrite lookup_delete_ne; [done |]. intros <-. congruence.
Qed.

Lemma run_Inv_lock cs : forall w w', Inv w -> run cs w = Some w' -> Inv w'.
Proof.
  induction cs as [|[fname denied errMsg | lock] cs IH]; intros w w' I H; cbn in H.
  - by injection H as <-.
  - eapply IH; [| done]. by apply LockFile_Inv.
  - destruct (UnlockFile lock w) as [st w1|] eqn:E; [| done].
    eapply IH; [| done]. by eapply UnlockFile_Inv.
Qed.

(** X8.  In a world reached from the empty one by any calls of
    [LockFile] and [UnlockFile], [LockFile] on a path that no open handle
    holds, the system not refusing, returns OK and a lock that is not
    null; the path is held from then on, and every further [LockFile] on
    it returns an I/O error and the null lock and changes nothing. *)
Theorem LockFile_excludes_a_second_lock
    (cs : list call) (w : world) (fname : string) (e1 : option string) :
  run cs empty_world = Some w -> held fname w = false ->
  let r := LockFile fname false e1 w in
  r.1.1 = OK /\ r.1.2 <> nullptr /\
  is_Some (heap r.2 !! r.1.2) /\
  held fname r.2 = true /\
  (forall denied e2, exists c m,
     LockFile fname denied e2 r.2 = (IOError c m, nullptr, r.2)).
Proof.
  intros Hr Hh r. pose proof (run_Inv_lock _ _ _ Inv_empty Hr) as I.
  subst r. rewrite (LockFile_succeeds fname e1 w I Hh). cbn [fst snd].
  assert (Hheld : held fname
            {| handles := <[next_handle w := fname]> (handles w);
               heap := <[S (next_addr w) := next_handle w]> (heap w);
               next_handle := next_handle w + 1;
               next_addr := S (next_addr w) |} = true).
  { apply held_lookup. exists (next_handle w). apply lookup_insert_eq. }
  split; [done |]. split; [done |].
  split; [cbn; by rewrite lookup_insert_eq |]. split; [done |].
  intros denied e2. apply LockFile_fails. rewrite Hheld. apply orb_true_r.
Qed.

Lemma LockFile_excludes_a_second_lock_witness :
  let w := (LockFile "a/LOCK" false None empty_world).2 in
  (LockFile "b/LOCK" false None w).1.1 = OK /\
  exists c m, (LockFile "b/LOCK" false None (LockFile "b/LOCK" false None w).2).1
              = (IOError c m, nullptr).
Proof.
  intros w.
  destruct (LockFile_excludes_a_second_lock
              [CLock "a/LOCK" false None] w "b/LOCK" None eq_refl eq_refl)
    as (H1 & _ & _ & _ & H2).
  split; [exact H1 |].
  destruct (H2 false None) as (c & m & H). exists c, m. by rewrite H.
Defined.

(** X9.  In a reachable world, the lock that [LockFile] returns for a
    free path can be given to [UnlockFile], which returns OK and brings
    the handles and the lock objects back to what they were before the
    [LockFile]: the path is free again and a fresh [LockFile] on it
    returns OK. *)
Theorem LockFile_UnlockFile_LockFile
    (cs : list call) (w : world) (fname : string) (e1 e2 : option string) :
  run cs empty_world = Some w -> held fname w = false ->
  let r := LockFile fname false e1 w in
  exists w2,
    UnlockFile r.1.2 r.2 = Returns OK w2 /\
    handles w2 = handles w /\ heap w2 = heap w /\
    held fname w2 = false /\
    (LockFile fname false e2 w2).1.1 = OK.
Proof.
  intros Hr Hh r. pose proof (run_Inv_lock _ _ _ Inv_empty Hr) as I.
  pose proof (LockFile_Inv fname false e1 w I) as I1.
  subst r. rewrite (LockFile_succeeds fname e1 w I Hh) in *. cbn [fst snd] in *.
  set (w1 := {| handles := _ |}) in *.
  destruct (UnlockFile_live (S (next_addr w)) (next_handle w) w1)
    as (w2 & Hu & Hheap & Hhandles & _); [done | apply lookup_insert_eq |].
  exists w2. split; [done |].
  pose proof (inv_next_handle w I).
  rewrite bool_decide_eq_true_2 in Hhandles by (unfold INVALID_HANDLE_VALUE; lia).
  assert (H1 : handles w2 = handles w).
  { rewrite Hhandles. cbn. apply delete_insert_id.
    destruct (handles w !! next_handle w) as [q|] eqn:E; [| done].
    pose proof (inv_handle_range w I _ _ E). lia. }
  assert (H2 : heap w2 = heap w).
  { rewrite Hheap. cbn. apply delete_insert_id.
    destruct (heap w !! S (next_addr w)) as [q|] eqn:E; [| done].
    pose proof (inv_addr_range w I _ _ E). lia. }
  assert (H3 : held fname w2 = false).
  { unfold held in *. by rewrite H1. }
  split; [done |]. split; [done |]. split; [done |].
  pose proof (UnlockFile_Inv _ _ _ _ I1 Hu) as I2.
  by rewrite (LockFile_succeeds fname e2 w2 I2 H3).
Qed.

Lemma LockFile_UnlockFile_LockFile_witness :
  let r := LockFile "LOCK" false None empty_world in
  exists w2, UnlockFile r.1.2 r.2 = Returns OK w2 /\
             (LockFile "LOCK" false None w2).1.1 = OK.
Proof.
  intros r.
  destruct (LockFile_UnlockFile_LockFile [] empty_world "LOCK" None None
              eq_refl eq_refl) as (w2 & H1 & _ & _ & _ & H2).
  exists w2. split; [exact H1 | exact H2].
Defined.

(** X10.  In every world reached from the empty one by calls of
    [LockFile] and [UnlockFile], each path is held by at most one lock
    object: two live locks whose handles hold the same path are the same
    lock; every live lock holds an open handle; and a path is held
    exactly when some live lock holds it. *)
Theorem at_most_one_lock_per_path (cs : list call) (w : world) :
  run cs empty_world = Some w ->
  (forall a1 a2 h1 h2 p,
     heap w !! a1 = Some h1 -> heap w !! a2 = Some h2 ->
     handles w !! h1 = Some p -> handles w !! h2 = Some p -> a1 = a2) /\
  (forall a h, heap w !! a = Some h -> a <> nullptr /\ is_Some (handles w !! h)) /\
  (forall p, held p w = true <->
     exists a h, heap w !! a = Some h /\ handles w !! h = Some p).
Proof.
  intros Hr. pose proof (run_Inv_lock _ _ _ Inv_empty Hr) as I.
  split; [| split].
  - intros a1 a2 h1 h2 p Ha1 Ha2 Hh1 Hh2.
    pose proof (inv_one_handle w I _ _ _ Hh1 Hh2) as <-.
    by eapply (inv_one_lock w I).
  - intros a h Ha. split; [| by eapply (inv_lock_owns w I)].
    pose proof (inv_addr_range w I _ _ Ha). unfold nullptr. lia.
  - intros p. rewrite held_lookup. split.
    + intros [h Hh]. destruct (inv_handle_owned w I _ _ Hh) as [a Ha]. eauto.
    + intros (a & h & _ & Hh). eauto.
Qed.

Lemma at_most_one_lock_per_path_witness :
  let cs := [CLock "a/LOCK" false None; CLock "a/LOCK" false None;
             CLock "b/LOCK" false None; CUnlock 1] in
  exists w, run cs empty_world = Some w /\
            held "a/LOCK" w = false /\ held "b/LOCK" w = true.
Proof.
  intros cs.
  assert (H : exists w, run cs empty_world = Some w /\
            held "a/LOCK" w = false).
  { eexists. split; [vm_compute; reflexivity | reflexivity]. }
  destruct H as (w & Hr & Ha). exists w. split; [exact Hr |]. split; [exact Ha |].
  destruct (at_most_one_lock_per_path cs w Hr) as (_ & _ & H).
  apply H. vm_compute in Hr. injection Hr as <-.
  exists 2%nat, 1. split; reflexivity.
Defined.

End LockCallsFacts.

(** ** Deleting, listing and the test directory *)

Section DirFacts.
Import Fs Dir.

Lemma below_spec (p q : path) : below p q = true <-> p `prefix_of` q /\ q <> p.
Proof.
  unfold below. rewrite andb_true_iff, negb_true_iff, bool_decide_eq_true,
    bool_decide_eq_false. done.
Qed.

Lemma has_entries_spec (fs : gmap path node) (p : path) :
  has_entries fs p = true <->
  exists q k, fs !! q = Some k /\ p `prefix_of` q /\ q <> p.
Proof.
  unfold has_entries. rewrite existsb_exists. split.
  - intros ([q k] & Hin & Hb). apply list_elem_of_In, elem_of_map_to_list in Hin.
    apply below_spec in Hb. eauto.
  - intros (q & k & Hl & Hp). exists (q, k). split.
    + by apply list_elem_of_In, elem_of_map_to_list.
    + by apply below_spec.
Qed.

(** X11.  [DeleteFile] on a path that does not exist returns OK and
    changes nothing.  When the system does not refuse, a file is removed,
    and so is a directory with nothing below it, with status OK, and the
    path no longer exists; a directory with an entry below it is left in
    place and the status is an I/O error.  A refusal by the system gives
    an I/O error.  No other path is ever touched. *)
Theorem DeleteFile_behaviour (denied : bool) (fname : path) (fs : gmap path node) :
  (fs !! fname = None -> DeleteFile denied fname fs = (OK, fs)) /\
  (denied = false ->
   (fs !! fname = Some File \/
    (fs !! fname = Some Dir /\ has_entries fs fname = false)) ->
   DeleteFile denied fname fs = (OK, delete fname fs) /\
   FileExists (DeleteFile denied fname fs).2 fname = false) /\
  (fs !! fname = Some Dir ->
   (exists q k, fs !! q = Some k /\ fname `prefix_of` q /\ q <> fname) ->
   exists m, DeleteFile denied fname fs = (IOError (show fname) m, fs)) /\
  (denied = true -> is_Some (fs !! fname) ->
   exists m, DeleteFile denied fname fs = (IOError (show fname) m, fs)) /\
  (forall q, q <> fname -> (DeleteFile denied fname fs).2 !! q = fs !! q).
Proof.
  unfold DeleteFile, remove. split; [| split; [| split; [| split]]].
  - by intros ->.
  - intros -> [-> | [-> ->]]; cbn; (split; [done |]);
      unfold FileExists, exists_; by rewrite lookup_delete_eq.
  - intros -> He. apply has_entries_spec in He. rewrite He.
    destruct denied; eauto.
  - intros -> [k ->]. eauto.
  - intros q Hq. destruct (fs !! fname) as [k|]; [| done].
    destruct denied; [done |].
    destruct k; [destruct (has_entries fs fname) |]; cbn; try done;
      by rewrite lookup_delete_ne.
Qed.

Lemma DeleteFile_behaviour_witness :
  let fs : gmap path node :=
    {[ ["db"] := Dir; ["db"; "LOG"] := File ]} in
  DeleteFile false ["db"; "MANIFEST"] fs = (OK, fs) /\
  (exists m, DeleteFile false ["db"] fs = (IOError (show ["db"]) m, fs)) /\
  (DeleteFile false ["db"; "LOG"] fs).1 = OK.
Proof.
  intros fs.
  destruct (DeleteFile_behaviour false ["db"; "MANIFEST"] fs) as (H1 & _).
  destruct (DeleteFile_behaviour false ["db"] fs) as (_ & _ & H3 & _).
  destruct (DeleteFile_behaviour false ["db"; "LOG"] fs) as (_ & H2 & _).
  split; [apply H1; reflexivity |]. split.
  - apply H3; [reflexivity |]. exists ["db"; "LOG"], File.
    split; [reflexivity |]. split; [by exists ["LOG"] | done].
  - destruct H2 as [-> _]; [reflexivity | left; reflexivity | reflexivity].
Defined.



Lemma child_of_spec (dir q : path) (c : string) :
  child_of dir q = Some c <-> q = dir ++ [c].
Proof.
  unfold child_of. case_bool_decide as H.
  - destruct H as [Hq Hl]. split.
    + intros Hc. rewrite Hq. f_equal.
      assert (Hd : length (drop (length dir) q) = 1%nat)
        by (rewrite length_drop; lia).
      destruct (drop (length dir) q) as [|x [|y l]] eqn:E; try done.
      rewrite Hq, last_app in Hc. cbn in Hc. by injection Hc as ->.
    + intros ->. by rewrite last_snoc.
  - split; [done |]. intros ->. exfalso. apply H.
    rewrite drop_app_length, length_app. cbn. split; [done | lia].
Qed.

Lemma entries_spec (fs : gmap path node) (dir : path) (c : string) :
  c ∈ entries fs dir <-> is_Some (fs !! (dir ++ [c])).
Proof.
  unfold entries. rewrite list_elem_of_omap. split.
  - intros ([q k] & Hin & Hc). apply elem_of_map_to_list in Hin.
    apply child_of_spec in Hc. cbn in Hc. subst q. eauto.
  - intros [k Hk]. exists (dir ++ [c], k). split.
    + by apply elem_of_map_to_list.
    + by apply child_of_spec.
Qed.

Lemma NoDup_omap_inj {A B : Type} (f : A -> option B) (l : list A) :
  NoDup l ->
  (forall x y z, x ∈ l -> y ∈ l -> f x = Some z -> f y = Some z -> x = y) ->
  NoDup (omap f l).
Proof.
  induction 1 as [|x l Hx Hl IH]; intros Hinj; [constructor |].
  cbn. destruct (f x) as [z|] eqn:E.
  - constructor.
    + intros (y & Hy & Hfy)%list_elem_of_omap.
      apply Hx. rewrite (Hinj x y z); [done | | | done | done].
      * apply list_elem_of_here.
      * by apply list_elem_of_further.
    + apply IH. intros a b c Ha Hb. apply Hinj; by apply list_elem_of_further.
  - apply IH. intros a b c Ha Hb. apply Hinj; by apply list_elem_of_further.
Qed.

Lemma entries_NoDup (fs : gmap path node) (dir : path) : NoDup (entries fs dir).
Proof.
  unfold entries. apply NoDup_omap_inj; [apply NoDup_map_to_list |].
  intros [q1 k1] [q2 k2] c H1 H2 E1%child_of_spec E2%child_of_spec.
  cbn in *. subst q1 q2.
  apply elem_of_map_to_list in H1, H2. congruence.
Qed.

(** X13.  [GetChildren] on a directory, the system not refusing: the
    status is OK and the result holds, once each, exactly the names [c]
    for which [dir/c] exists, whatever the vector held before.  On a
    path that is a file or does not exist, or when the system refuses,
    the status is an I/O error and the result is empty, the former
    content being lost. *)
Theorem GetChildren_lists_the_entries
    (refused : bool) (dir : path) (fs : gmap path node) (before : list string) :
  let r := GetChildren refused dir fs before in
  (refused = false -> fs !! dir = Some Dir ->
   r.1 = OK /\ NoDup r.2 /\
   (forall c, c ∈ r.2 <-> is_Some (fs !! (dir ++ [c])))) /\
  (refused = true \/ fs !! dir <> Some Dir ->
   is_io_error r.1 = true /\ r.2 = []).
Proof.
  intros r. subst r. unfold GetChildren. split.
  - intros -> ->. cbn [fst snd]. split; [done |].
    split; [apply entries_NoDup | apply entries_spec].
  - intros [-> | Hn]; [done |].
    destruct refused; [done |]. by destruct (fs !! dir) as [[]|].
Qed.

Lemma GetChildren_lists_the_entries_witness :
  let fs : gmap path node :=
    {[ ["db"] := Dir; ["db"; "LOG"] := File; ["db"; "lost"] := Dir;
       ["db"; "lost"; "x"] := File ]} in
  (GetChildren false ["db"] fs ["stale"]).1 = OK /\
  ("LOG" ∈ (GetChildren false ["db"] fs ["stale"]).2) /\
  ("x" ∉ (GetChildren false ["db"] fs ["stale"]).2) /\
  (GetChildren false ["db"; "LOG"] fs ["stale"]).2 = [].
Proof.
  intros fs.
  destruct (GetChildren_lists_the_entries false ["db"] fs ["stale"]) as [H _].
  destruct H as (Hs & _ & Hc); [reflexivity | reflexivity |].
  destruct (GetChildren_lists_the_entries false ["db"; "LOG"] fs ["stale"]) as [_ H].
  split; [exact Hs |]. split; [apply Hc; by exists File |].
  split.
  - intros Hx. apply Hc in Hx as [k Hk]. discriminate Hk.
  - apply H. right. discriminate.
Defined.

Lemma create_directories_from_not_made denied rest :
  forall parent created (fs : gmap path node),
    (create_directories_from denied parent rest created fs).1.1 = false ->
    rest <> [] -> fs !! (parent ++ rest) <> Some Dir ->
    (create_directories_from denied parent rest created fs).2 !! (parent ++ rest)
    <> Some Dir.
Proof.
  induction rest as [|c rest IH]; intros parent created fs Hm Hne Hfs; [done |].
  cbn [create_directories_from] in *.
  replace (parent ++ c :: rest) with ((parent ++ [c]) ++ rest) in *
    by (by rewrite <- app_assoc).
  destruct (fs !! (parent ++ [c])) as [[]|] eqn:E; [| done |].
  - destruct rest as [|c' rest]; [by rewrite app_nil_r in Hfs |].
    by apply IH.
  - destruct (denied (parent ++ [c])); [done |].
    destruct rest as [|c' rest]; [done |].
    apply IH; [done | done |].
    rewrite lookup_insert_ne; [done |].
    intros He. apply (f_equal length) in He. rewrite !length_app in He.
    cbn [length] in He. lia.
Qed.

Lemma CreateDir_OK_iff_directory
    (denied : path -> bool) (name : path) (fs : gmap path node) :
  (CreateDir denied name fs).1 = OK <->
  is_directory (CreateDir denied name fs).2 name = true.
Proof.
  destruct (is_directory fs name) eqn:Hd.
  - rewrite CreateDir_early by done. done.
  - rewrite CreateDir_late by done.
    destruct name as [|c name]; [cbn; by rewrite Hd |].
    pose proof (create_directories_from_made denied (c :: name) [] false fs) as H1.
    pose proof (create_directories_from_not_made denied (c :: name) [] false fs) as H2.
    unfold create_directories.
    destruct (create_directories_from denied [] (c :: name) false fs)
      as [[made ec] fs1].
    cbn [fst snd app] in *. destruct made; cbn [negb fst snd].
    + split; [intros _ | done]. destruct (H1 eq_refl) as [_ HF].
      apply is_directory_lookup. rewrite Forall_forall in HF. apply HF.
      by apply (prefixes_from_last [] (c :: name)).
    + split; [done |]. intros Hdir%is_directory_lookup. exfalso.
      apply (H2 eq_refl); [done | | done].
      intros Hx%is_directory_lookup. congruence.
Qed.

(** X14.  [GetTestDirectory] returns OK whatever happens to the
    directory: its result is [leveldb_tests/<pid>] under the temporary
    directory of the system, or under [tmp] when there is none; the
    status of the [CreateDir] it makes is dropped, so the path returned is
    a directory afterwards exactly when that [CreateDir] succeeded; no
    entry that existed is changed. *)
Theorem GetTestDirectory_always_OK
    (temp : option path) (pid : string) (denied : path -> bool)
    (fs : gmap path node) :
  let r := GetTestDirectory temp pid denied fs in
  let dir := (match temp with Some t => t | None => ["tmp"] end)
             ++ ["leveldb_tests"; pid] in
  r.1.1 = OK /\ r.1.2 = dir /\
  (is_directory r.2 dir = true <-> (CreateDir denied dir fs).1 = OK) /\
  (forall q x, fs !! q = Some x -> r.2 !! q = Some x).
Proof.
  intros r dir. subst r. unfold GetTestDirectory.
  replace ((match temp with Some t => t | None => ["tmp"] end
            ++ ["leveldb_tests"]) ++ [pid]) with dir
    by (subst dir; by rewrite <- app_assoc).
  pose proof (CreateDir_OK_iff_directory denied dir fs) as Hiff.
  assert (Hframe : forall q x, fs !! q = Some x ->
            (CreateDir denied dir fs).2 !! q = Some x).
  { destruct (is_directory fs dir) eqn:Hd.
    - by rewrite CreateDir_early.
    - rewrite CreateDir_late by done. intros q x Hq.
      pose proof (create_directories_from_frame denied dir [] false fs q x Hq) as H.
      unfold create_directories.
      destruct (create_directories_from denied [] dir false fs) as [[made ec] fs1].
      by destruct made. }
  destruct (CreateDir denied dir fs) as [st fs']. cbn [fst snd] in *.
  split; [done |]. split; [done |]. split; [by symmetry | done].
Qed.

Lemma GetTestDirectory_always_OK_witness :
  let fs : gmap path node := {[ ["tmp"] := File ]} in
  let r := GetTestDirectory None "4242" (fun _ => false) fs in
  r.1.1 = OK /\ r.1.2 = ["tmp"; "leveldb_tests"; "4242"] /\
  (CreateDir (fun _ => false) ["tmp"; "leveldb_tests"; "4242"] fs).1 <> OK.
Proof.
  intros fs r.
  destruct (GetTestDirectory_always_OK None "4242" (fun _ => false) fs)
    as (H1 & H2 & _).
  split; [exact H1 |]. split; [exact H2 |]. discriminate.
Defined.

End DirFacts.

(** ** The queue: exclusion and wake-ups *)

Section BGMoreFacts.
Import Thread BG.
Local Open Scope nat_scope.

(** X15.  In every state reached from a fresh environment, at most one
    thread is between [lock] and [unlock]: two callers inside the
    critical section of [Schedule] are the same caller, and no caller is
    inside it while the worker is inside its own.  The worker does not
    own the mutex while it runs a task, nor while it waits. *)
Theorem mutex_excludes
    (progs : list (list task)) (acts : list action) (s : state) :
  run acts (init progs) = Some s ->
  (forall i i' x x',
     submitters s !! i = Some x -> in_critical_section (s_pc x) = true ->
     submitters s !! i' = Some x' -> in_critical_section (s_pc x') = true ->
     i = i') /\
  (forall i x j,
     submitters s !! i = Some x -> in_critical_section (s_pc x) = true ->
     workers s !! j <> Some WLocked) /\
  (forall j w,
     workers s !! j = Some w -> w <> WLocked -> mu_ s <> Some (Worker j)).
Proof.
  intros Hr. pose proof (reachable_Inv _ _ _ Hr) as I.
  split; [| split].
  - intros i i' x x' H1 C1 H2 C2.
    pose proof (inv_sub_holds s I _ _ H1 C1).
    pose proof (inv_sub_holds s I _ _ H2 C2). congruence.
  - intros i x j H1 C1 Hj.
    pose proof (inv_sub_holds s I _ _ H1 C1).
    pose proof (inv_wrk_holds s I _ Hj). congruence.
  - intros j w Hj Hw Hmu.
    pose proof (inv_holds_wrk s I _ Hmu). congruence.
Qed.

Lemma mutex_excludes_witness :
  let t1 := {| function := 1; arg := 0 |} in
  let t3 := {| function := 3; arg := 0 |} in
  let progs := [[t1]; [t3]] in
  let acts := [ALock 0; ADecide 0; APush 0; WLock 0; WTest 0; ALock 1] in
  exists s, run acts (init progs) = Some s /\
            workers s = [WRun t1] /\ mu_ s = Some (Submitter 1).
Proof.
  intros t1 t3 progs acts.
  assert (H : exists s, run acts (init progs) = Some s /\
            workers s = [WRun t1] /\ mu_ s = Some (Submitter 1)).
  { eexists. split; [vm_compute; reflexivity |]. split; reflexivity. }
  destruct H as (s & Hr & Hw & Hm). exists s.
  destruct (mutex_excludes progs acts s Hr) as (_ & _ & H).
  pose proof (H 0 (WRun t1)) as H'. rewrite Hw in H'.
  specialize (H' eq_refl ltac:(discriminate)).
  split; [exact Hr |]. split; [exact Hw | exact Hm].
Defined.

(** X16.  No wake-up is lost.  In every state reached from a fresh
    environment in which the worker waits on the condition variable
    while the queue is not empty, some caller has appended and released
    the mutex and has its [notify_one] still to make; that step is
    enabled and leaves the worker woken, at the top of its loop. *)
Theorem no_lost_wakeup
    (progs : list (list task)) (acts : list action) (s : state) :
  run acts (init progs) = Some s ->
  queue_ s <> [] -> existsb is_waiting (workers s) = true ->
  exists i todo s',
    submitters s !! i = Some {| s_pc := SNotify; s_todo := todo |} /\
    step (ANotify i 0) s = Some s' /\
    workers s' = [WTop] /\ queue_ s' = queue_ s.
Proof.
  intros Hr Hq Hw. pose proof (reachable_Inv _ _ _ Hr) as I.
  pose proof (inv_wakeup s I Hq Hw) as Hn.
  apply existsb_lookup in Hn as (i & [pc todo] & Hl & Hp).
  destruct pc; try done. exists i, todo.
  destruct (workers_shape s I) as [[Hs _] | (w & Hs & _)];
    rewrite Hs in Hw; [done |].
  destruct w; try done.
  unfold step. rewrite Hl, Hs. cbn. eexists. split; [done |].
  split; [reflexivity |]. done.
Qed.

Lemma no_lost_wakeup_witness :
  let t1 := {| function := 1; arg := 0 |} in
  let t2 := {| function := 2; arg := 0 |} in
  let progs := [[t1; t2]] in
  let acts := [ALock 0; ADecide 0; APush 0; WLock 0; WTest 0; WCall 0;
               WLock 0; WTest 0; ANotify 0 0; WLock 0; WTest 0;
               ALock 0; ADecide 0; APush 0] in
  exists s i todo s',
    run acts (init progs) = Some s /\
    queue_ s = [t2] /\ workers s = [WWaiting] /\
    submitters s !! i = Some {| s_pc := SNotify; s_todo := todo |} /\
    step (ANotify i 0) s = Some s' /\ workers s' = [WTop].
Proof.
  intros t1 t2 progs acts.
  assert (H : exists s, run acts (init progs) = Some s /\
            queue_ s = [t2] /\ workers s = [WWaiting]).
  { eexists. split; [vm_compute; reflexivity |]. split; reflexivity. }
  destruct H as (s & Hr & Hq & Hw). exists s.
  destruct (no_lost_wakeup progs acts s Hr) as (i & todo & s' & H1 & H2 & H3 & _).
  - by rewrite Hq.
  - by rewrite Hw.
  - exists i, todo, s'. split; [exact Hr |]. split; [exact Hq |].
    split; [exact Hw |]. split; [exact H1 |]. split; [exact H2 | exact H3].
Defined.

End BGMoreFacts.

(** ** The width of the time stamp *)

Section LoggerMoreFacts.
Import Logger Stamp.

Lemma fmt_0d_exact (w : nat) (n : N) :
  (1 <= w)%nat -> (n < 10 ^ N.of_nat w)%N -> length (fmt_0d w n) = w.
Proof.
  intros Hw Hn. unfold fmt_0d, digits. rewrite length_app, length_replicate.
  pose proof (digits_aux_length 10 (S (N.size_nat n)) ltac:(lia) w n [] Hw Hn) as H.
  cbn [length] in H. lia.
Qed.

(** X17.  For a date before the year 10000 the time stamp of a log line
    has exactly 23 characters: the header is the stamp, a space, the
    thread identifier in hexadecimal and a space, so that the identifier
    starts at column 24 on every line, and the separators of the stamp
    stand at the columns 4, 7, 10, 13, 16 and 19. *)
Theorem header_time_stamp_width (st : SYSTEMTIME) (thread_id : N) :
  calendar st = true ->
  exists stamp : list Byte.byte,
    header st thread_id = stamp ++ [Byte.x20] ++ fmt_llx thread_id ++ [Byte.x20] /\
    length stamp = 23%nat /\
    stamp !! 4%nat = Some Byte.x2f /\ stamp !! 7%nat = Some Byte.x2f /\
    stamp !! 10%nat = Some Byte.x2d /\ stamp !! 13%nat = Some Byte.x3a /\
    stamp !! 16%nat = Some Byte.x3a /\ stamp !! 19%nat = Some Byte.x2e.
Proof.
  unfold calendar. rewrite !andb_true_iff, !N.ltb_lt.
  intros [[[[[[H1 H2] H3] H4] H5] H6] H7].
  pose proof (fmt_0d_exact 4 _ ltac:(lia) H1) as L1.
  pose proof (fmt_0d_exact 2 _ ltac:(lia) H2) as L2.
  pose proof (fmt_0d_exact 2 _ ltac:(lia) H3) as L3.
  pose proof (fmt_0d_exact 2 _ ltac:(lia) H4) as L4.
  pose proof (fmt_0d_exact 2 _ ltac:(lia) H5) as L5.
  pose proof (fmt_0d_exact 2 _ ltac:(lia) H6) as L6.
  pose proof (fmt_0d_exact 3 _ ltac:(lia) H7) as L7.
  unfold header.
  destruct (fmt_0d 4 (wYear st)) as [|y1 [|y2 [|y3 [|y4 [|? ?]]]]]; try done.
  destruct (fmt_0d 2 (wMonth st)) as [|m1 [|m2 [|? ?]]]; try done.
  destruct (fmt_0d 2 (wDay st)) as [|d1 [|d2 [|? ?]]]; try done.
  destruct (fmt_0d 2 (wHour st)) as [|h1 [|h2 [|? ?]]]; try done.
  destruct (fmt_0d 2 (wMinute st)) as [|i1 [|i2 [|? ?]]]; try done.
  destruct (fmt_0d 2 (wSecond st)) as [|s1 [|s2 [|? ?]]]; try done.
  destruct (fmt_0d 3 (wMilliseconds st)) as [|x1 [|x2 [|x3 [|? ?]]]]; try done.
  eexists [y1; y2; y3; y4; _; m1; m2; _; d1; d2; _; h1; h2; _; i1; i2; _;
           s1; s2; _; x1; x2; x3].
  repeat split; reflexivity.
Qed.

Lemma header_time_stamp_width_witness :
  let st := {| wYear := 2011; wMonth := 3; wDay := 9; wHour := 14;
               wMinute := 5; wSecond := 59; wMilliseconds := 7 |} in
  calendar st = true /\
  exists stamp, header st 48879 = stamp ++ [Byte.x20] ++ fmt_llx 48879 ++ [Byte.x20]
                /\ length stamp = 23%nat.
Proof.
  intros st. split; [reflexivity |].
  destruct (header_time_stamp_width st 48879 eq_refl) as (stamp & H1 & H2 & _).
  exists stamp. split; [exact H1 | exact H2].
Defined.

End LoggerMoreFacts.

(** ** The two ways of reading a file *)

Section ReadersFacts.
Import Disk.

(** X18.  On a file that exists, [NewSequentialFile] and
    [NewRandomAccessFile] both return OK, and the two handles agree:
    for [k] below [2^31] and [n] at most [INT_MAX], nothing failing, the
    sequential file after [Skip(k)] reads with [Read(n)] the very bytes
    that the random-access file returns for [Read(k, n)], the bytes of
    the file from [k] on.  On a name that does not exist both return an
    I/O error and no handle. *)
Theorem sequential_and_random_access_agree
    (fname : string) (d : files) (k n : Z) :
  0 <= k < 2 ^ 31 -> 0 <= n <= RandomFile.INT_MAX ->
  (forall bytes, d !! fname = Some bytes ->
     exists sf rf,
       NewSequentialFile fname None d = (OK, Some sf) /\
       NewRandomAccessFile fname None d = (OK, Some rf) /\
       (SeqFile.Read (Z.to_nat n) None (SeqFile.Skip k false sf).2).1
         = (OK, take (Z.to_nat n) (drop (Z.to_nat k) bytes)) /\
       (RandomFile.Read k n false false rf).1
         = (OK, Some (take (Z.to_nat n) (drop (Z.to_nat k) bytes)))) /\
  (d !! fname = None ->
     is_io_error (NewSequentialFile fname None d).1 = true /\
     (NewSequentialFile fname None d).2 = None /\
     is_io_error (NewRandomAccessFile fname None d).1 = true /\
     (NewRandomAccessFile fname None d).2 = None).
Proof.
  intros Hk Hn. split.
  - intros bytes Hd. unfold NewSequentialFile, NewRandomAccessFile, open_for_reading.
    rewrite Hd. eexists _, _. split; [reflexivity |]. split; [reflexivity |].
    split.
    + destruct (Skip_then_Read_wf (SeqFile.open fname bytes) k (Z.to_nat n)
                  (wf_open _ _) Hk) as [_ H].
      exact H.
    + rewrite Read_ok by lia. done.
  - intros Hd. unfold NewSequentialFile, NewRandomAccessFile, open_for_reading.
    by rewrite Hd.
Qed.

Lemma sequential_and_random_access_agree_witness :
  let d : files := {[ "db/000005.ldb" := [Byte.x61; Byte.x62; Byte.x63; Byte.x64] ]} in
  0 <= 1 < 2 ^ 31 /\ 0 <= 2 <= RandomFile.INT_MAX /\
  exists sf rf,
    NewSequentialFile "db/000005.ldb" None d = (OK, Some sf) /\
    NewRandomAccessFile "db/000005.ldb" None d = (OK, Some rf) /\
    (SeqFile.Read 2 None (SeqFile.Skip 1 false sf).2).1 = (OK, [Byte.x62; Byte.x63]) /\
    (RandomFile.Read 1 2 false false rf).1 = (OK, Some [Byte.x62; Byte.x63]).
Proof.
  intros d. split; [lia |]. split; [unfold RandomFile.INT_MAX; lia |].
  destruct (sequential_and_random_access_agree "db/000005.ldb" d 1 2) as [H _];
    [lia | unfold RandomFile.INT_MAX; lia |].
  destruct (H _ eq_refl) as (sf & rf & H1 & H2 & H3 & H4).
  exists sf, rf. split; [exact H1 |]. split; [exact H2 |].
  split; [exact H3 | exact H4].
Defined.

End ReadersFacts.
